(** * Streaming sketches and the online Markov model: a shallow embedding

    The Python classes [CountMinSketch], [DGIM], [RunningMoments], [AMSF2],
    [OnlineMarkovModel], [MinWiseSampler] and the module-level membership
    filter are embedded as Rocq functions over explicit state.  Python
    integers are [Z]; lists are [list] with stdpp's lookup and update and the
    bounds checks of Python written out; exceptions are the [Raise] branch of
    [result]. *)

From Stdlib Require Import ZArith QArith Qfield Lia Permutation.
From Stdlib Require Import Floats.PrimFloat Numbers.Cyclic.Int63.Uint63.
From Stdlib Require Floats.SpecFloat Floats.FloatOps.
From stdpp Require Import base option list gmap strings pretty.

Local Open Scope Z_scope.

(** ** Python runtime: exceptions, indexing, modulo, true division *)

Module Py.

Inductive exn : Set :=
  | ZeroDivisionError
  | IndexError
  | ValueError
  | OverflowError.

Inductive result (A : Type) : Type :=
  | Ok (a : A)
  | Raise (e : exn).
Global Arguments Ok {A} a.
Global Arguments Raise {A} e.

Global Instance result_ret : MRet result := fun _ a => Ok a.
Global Instance result_bind : MBind result := fun _ _ f r =>
  match r with
  | Ok a => f a
  | Raise e => Raise e
  end.

Definition raises {A} (r : result A) : bool :=
  match r with Ok _ => false | Raise _ => true end.

(** [l[i]] for a Python list: a negative index counts from the end, and an
    index outside [-len, len) raises [IndexError]. *)
Definition norm_index {A} (l : list A) (i : Z) : result nat :=
  let n := Z.of_nat (length l) in
  if (0 <=? i) && (i <? n) then Ok (Z.to_nat i)
  else if (- n <=? i) && (i <? 0) then Ok (Z.to_nat (n + i))
  else Raise IndexError.

Definition getitem {A} (l : list A) (i : Z) : result A :=
  j ← norm_index l i;
  match l !! j with
  | Some x => Ok x
  | None => Raise IndexError
  end.

(** [l[i] = x]. *)
Definition setitem {A} (l : list A) (i : Z) (x : A) : result (list A) :=
  j ← norm_index l i;
  Ok (<[j := x]> l).

(** [a % b] on integers: the sign follows the divisor, as [Z.modulo] does. *)
Definition mod_ (a b : Z) : result Z :=
  if b =? 0 then Raise ZeroDivisionError else Ok (a mod b).

(** [[x] * n]: a non-positive [n] gives the empty list. *)
Definition repeat_list {A} (x : A) (n : Z) : list A := replicate (Z.to_nat n) x.

(** [range(n)]. *)
Definition range (n : Z) : list nat := seq 0 (Z.to_nat n).

(** [min(xs)] over integers; the empty sequence raises [ValueError]. *)
Definition min_ (xs : list Z) : result Z :=
  match xs with
  | [] => Raise ValueError
  | x :: xs' => Ok (foldl Z.min x xs')
  end.

(** A Python integer as an operand of a float division. *)
Definition int_spec (z : Z) : SpecFloat.spec_float :=
  match z with
  | Z0 => SpecFloat.S754_zero false
  | Zpos p => SpecFloat.S754_finite false p 0
  | Zneg p => SpecFloat.S754_finite true p 0
  end.

(** [a / b] on integers: the quotient rounded to the nearest binary64 float,
    ties to even.  A zero divisor raises [ZeroDivisionError]; a quotient
    beyond the float range raises [OverflowError]. *)
Definition truediv (a b : Z) : result float :=
  if b =? 0 then Raise ZeroDivisionError
  else
    match SpecFloat.SFdiv FloatOps.prec FloatOps.emax
            (int_spec a) (int_spec b) with
    | SpecFloat.S754_infinity _ => Raise OverflowError
    | q => Ok (FloatOps.SF2Prim q)
    end.

End Py.
Import Py.

(** ** Frequency sketch (count_min_sketch.py) *)

Module CountMinSketch.
Section Sketch.

(** [mmh3.hash(key, seed)]: some integer fixed by the key and the seed. *)
Variable mmh3_hash : string → Z → Z.
(** The [i]-th value of [random.randint(0, 2**31-1)] after [random.seed(seed)]. *)
Variable randint : Z → nat → Z.

Record t : Type := mk {
  width : Z;
  depth : Z;
  tables : list (list Z);
  seeds : list Z
}.

(** [__init__]: no argument is checked; a non-positive [width] gives empty
    rows and a non-positive [depth] gives no rows and no seeds. *)
Definition init (width depth seed : Z) : result t :=
  Ok {| width := width;
        depth := depth;
        tables := (fun _ => repeat_list 0 width) <$> range depth;
        seeds := randint seed <$> range depth |}.

(** The body of [add]'s loop from row [i] on: the generator [_hashes] is
    advanced (the modulo may raise), then [tables[i][idx] += count]. *)
Fixpoint add_loop (w : Z) (key : string) (count : Z)
    (i : nat) (ss : list Z) (tbl : list (list Z)) : result (list (list Z)) :=
  match ss with
  | [] => Ok tbl
  | s :: ss' =>
      idx ← mod_ (mmh3_hash key s) w;
      row ← getitem tbl (Z.of_nat i);
      cell ← getitem row idx;
      row' ← setitem row idx (cell + count);
      tbl' ← setitem tbl (Z.of_nat i) row';
      add_loop w key count (S i) ss' tbl'
  end.

Definition add (self : t) (key : string) (count : Z) : result t :=
  tbl ← add_loop (width self) key count 0 (seeds self) (tables self);
  Ok {| width := width self; depth := depth self;
        tables := tbl; seeds := seeds self |}.

(** The values [tables[i][idx]] that [estimate] hands to [min]. *)
Fixpoint cells (w : Z) (key : string)
    (i : nat) (ss : list Z) (tbl : list (list Z)) : result (list Z) :=
  match ss with
  | [] => Ok []
  | s :: ss' =>
      idx ← mod_ (mmh3_hash key s) w;
      row ← getitem tbl (Z.of_nat i);
      cell ← getitem row idx;
      rest ← cells w key (S i) ss' tbl;
      Ok (cell :: rest)
  end.

Definition estimate (self : t) (key : string) : result Z :=
  vs ← cells (width self) key 0 (seeds self) (tables self);
  min_ vs.

(** A finite sequence of [add(key, count)] calls. *)
Fixpoint add_all (self : t) (ops : list (string * Z)) : result t :=
  match ops with
  | [] => Ok self
  | (k, c) :: ops' => self' ← add self k c; add_all self' ops'
  end.

(** The true total added for [key]. *)
Fixpoint true_count (key : string) (ops : list (string * Z)) : Z :=
  match ops with
  | [] => 0
  | (k, c) :: ops' =>
      (if String.eqb k key then c else 0) + true_count key ops'
  end.

(** The column of [key] in the row seeded by [s]. *)
Definition column (w : Z) (key : string) (s : Z) : nat :=
  Z.to_nat (mmh3_hash key s mod w).

(** What one [add] does to the row seeded by [s]. *)
Definition bump (w : Z) (key : string) (count : Z) (s : Z) (row : list Z) :
    list Z :=
  alter (fun c => c + count) (column w key s) row.

(** Every row has [w] cells and there is one row per seed. *)
Definition shaped (w : Z) (ss : list Z) (tbl : list (list Z)) : Prop :=
  length tbl = length ss ∧ Forall (fun row => Z.of_nat (length row) = w) tbl.

(** Every cell a key is hashed to holds at least [b key]. *)
Definition bounded (b : string → Z) (w : Z) (ss : list Z)
    (tbl : list (list Z)) : Prop :=
  ∀ key i s row, ss !! i = Some s → tbl !! i = Some row →
    ∃ c, row !! column w key s = Some c ∧ b key <= c.

(** The total of the counts of the operations whose key the seed [s] sends
    to column [col]. *)
Fixpoint column_total (w : Z) (s : Z) (col : nat) (ops : list (string * Z)) :
    Z :=
  match ops with
  | [] => 0
  | (k, c) :: ops' =>
      (if decide (column w k s = col) then c else 0)
      + column_total w s col ops'
  end.

(** Every cell of the row seeded by [s] holds [b s col]. *)
Definition exact (b : Z → nat → Z) (ss : list Z) (tbl : list (list Z)) :
    Prop :=
  ∀ i s row col, ss !! i = Some s → tbl !! i = Some row →
    (col < length row)%nat → row !! col = Some (b s col).

End Sketch.
End CountMinSketch.

(** ** Windowed bit counter (dgim.py) *)

Module DGIM.

(** A bucket is the dict [{'time': ts, 'size': n}]. *)
Record bucket : Type := Bucket { time : Z; size : Z }.

Record t : Type := mk {
  window : Z;
  (* newest first *)
  buckets : list bucket
}.

Definition init (window_size : Z) : t :=
  {| window := window_size; buckets := [] |}.

(** The [while i+2 < len(self.buckets)] loop of [add_bit], read at position
    [i]: [b0] is [buckets[i]] and [rest] is [buckets[i+1:]]; the buckets
    before [i] are never looked at again.  When the three sizes agree,
    [buckets[i+1]['size'] += buckets[i]['size']] and [buckets.pop(i)] leave
    the grown [buckets[i+1]] at position [i], and [i] stays; otherwise [i]
    moves on by one. *)
Fixpoint merge_from (b0 : bucket) (rest : list bucket) : list bucket :=
  match rest with
  | b1 :: rest' =>
      match rest' with
      | b2 :: _ =>
          if (size b0 =? size b1) && (size b1 =? size b2)
          then merge_from {| time := time b1; size := size b1 + size b0 |} rest'
          else b0 :: merge_from b1 rest'
      | [] => b0 :: rest
      end
  | [] => [b0]
  end.

Definition merge (bs : list bucket) : list bucket :=
  match bs with
  | [] => []
  | b0 :: rest => merge_from b0 rest
  end.

(** [add_bit(bit, ts)]; [now] is what [_current_time()] would return, used
    when [ts] is [None]. *)
Definition add_bit (now : Z) (self : t) (bit : bool) (ts : option Z) : t :=
  let ts := default now ts in
  let bs :=
    if bit then merge ({| time := ts; size := 1 |} :: buckets self)
    else buckets self in
  let cutoff := ts - window self in
  {| window := window self;
     buckets := filter (fun b => cutoff <= time b) bs |}.

(** The [for b in self.buckets] loop of [query], carrying [total] and
    whether [last_bucket] is still [None]. *)
Fixpoint query_loop (cutoff : Z) (total : Z) (last_is_none : bool)
    (bs : list bucket) : Z :=
  match bs with
  | [] => total
  | b :: bs' =>
      if time b <? cutoff then
        (if last_is_none then total + size b `div` 2 else total)
      else query_loop cutoff (total + size b) false bs'
  end.

Definition query (now : Z) (self : t) (ts : option Z) : Z :=
  let ts := default now ts in
  query_loop (ts - window self) 0 true (buckets self).

(** A run of [add_bit(bit, ts)] calls with explicit timestamps. *)
Definition run (self : t) (events : list (bool * Z)) : t :=
  foldl (fun s ev => add_bit 0 s ev.1 (Some ev.2)) self events.

(** How many buckets of [self] have size [n]. *)
Definition count_size (n : Z) (self : t) : nat :=
  length (filter (fun b => size b = n) (buckets self)).

(** The buckets at the front of the list, up to the first one whose
    timestamp is below [cutoff]. *)
Fixpoint leading_in_window (cutoff : Z) (bs : list bucket) : list bucket :=
  match bs with
  | [] => []
  | b :: bs' =>
      if time b <? cutoff then [] else b :: leading_in_window cutoff bs'
  end.

Definition total_size (bs : list bucket) : Z :=
  foldr (fun b acc => size b + acc) 0 bs.

(** The number of set bits in a run of events. *)
Definition ones (events : list (bool * Z)) : Z :=
  Z.of_nat (length (filter (fun ev => ev.1 = true) events)).

(** Bucket timestamps that do not increase from the front of the list on. *)
Fixpoint descending (bs : list bucket) : Prop :=
  match bs with
  | [] => True
  | b :: bs' => Forall (fun b' => time b' <= time b) bs' ∧ descending bs'
  end.

(** Event timestamps that do not decrease. *)
Fixpoint ascending (events : list (bool * Z)) : Prop :=
  match events with
  | [] => True
  | ev :: events' =>
      Forall (fun ev' => ev.2 <= ev'.2) events' ∧ ascending events'
  end.

End DGIM.

(** ** Running moments (online_moments.py), on binary64 floats *)

Module RunningMoments.

Local Open Scope float_scope.

(** [float(z)] for a Python integer. *)
Definition float_of_int (z : Z) : float :=
  if (z <? 0)%Z then - PrimFloat.of_uint63 (Uint63.of_Z (- z))
  else PrimFloat.of_uint63 (Uint63.of_Z z).

(** [a / b] on floats: a zero divisor ([0.0] or [-0.0]) raises. *)
Definition fdiv (a b : float) : result float :=
  if PrimFloat.eqb b 0 then Raise ZeroDivisionError else Ok (a / b).

Record t : Type := mk {
  n : Z;
  mean : float;
  M2 : float;
  M3 : float;
  M4 : float
}.

Definition init : t := {| n := 0; mean := 0; M2 := 0; M3 := 0; M4 := 0 |}.

Definition update (self : t) (x : float) : result t :=
  let n1 := n self in
  let n' := (n self + 1)%Z in
  let delta := x - mean self in
  delta_n ← fdiv delta (float_of_int n');
  let delta_n2 := delta_n * delta_n in
  let term1 := delta * delta_n * float_of_int n1 in
  let mean' := mean self + delta_n in
  let M4' := M4 self +
    (term1 * delta_n2 * float_of_int (n' * n' - 3 * n' + 3)%Z
     + 6 * delta_n2 * M2 self - 4 * delta_n * M3 self) in
  let M3' := M3 self +
    (term1 * delta_n * float_of_int (n' - 2)%Z - 3 * delta_n * M2 self) in
  let M2' := M2 self + term1 in
  Ok {| n := n'; mean := mean'; M2 := M2'; M3 := M3'; M4 := M4' |}.

Definition get_mean (self : t) : float :=
  if (n self =? 0)%Z then 0 else mean self.

Definition get_variance (self : t) : result float :=
  if (1 <? n self)%Z then fdiv (M2 self) (float_of_int (n self - 1)%Z)
  else Ok 0.

Section Pow.

(** [x ** y] on floats. *)
Variable float_pow : float → float → float.

Definition get_skewness (self : t) : result float :=
  if (n self <? 3)%Z then Ok 0
  else fdiv (PrimFloat.sqrt (float_of_int (n self)) * M3 self)
            (float_pow (M2 self) 1.5).

End Pow.

Definition get_kurtosis (self : t) : result float :=
  if (n self <? 4)%Z then Ok 0
  else
    q ← fdiv (float_of_int (n self) * M4 self) (M2 self * M2 self);
    Ok (q - 3).

(** [update] called on each element of [xs] in turn. *)
Fixpoint update_all (self : t) (xs : list float) : result t :=
  match xs with
  | [] => Ok self
  | x :: xs' => self' ← update self x; update_all self' xs'
  end.

End RunningMoments.

(** ** Second frequency moment (ams_f2.py) *)

Module AMSF2.
Section Estimator.

(** [int(hashlib.sha256(b).hexdigest(), 16)] of the UTF-8 bytes of a string. *)
Variable sha256_int : string → Z.
(** The [i]-th value drawn by [random.randint(1, 2**31-1)] in [__init__]. *)
Variable randint : nat → Z.

Record t : Type := mk {
  k : Z;
  sign_hashes : list Z;
  Z_ : list Z
}.

Definition init (k : Z) : result t :=
  Ok {| k := k; sign_hashes := randint <$> range k; Z_ := repeat_list 0 k |}.

(** [_sign(x, seed)]; [x] is given by its [str] form. *)
Definition sign (x : string) (seed : Z) : Z :=
  let key := (x +:+ ":" +:+ pretty seed)%string in
  if sha256_int key mod 2 =? 0 then 1 else -1.

Fixpoint update_loop (self_hashes : list Z) (item : string) (value : Z)
    (idxs : list nat) (acc : list Z) : result (list Z) :=
  match idxs with
  | [] => Ok acc
  | i :: idxs' =>
      seed ← getitem self_hashes (Z.of_nat i);
      let s := sign item seed in
      z ← getitem acc (Z.of_nat i);
      acc' ← setitem acc (Z.of_nat i) (z + s * value);
      update_loop self_hashes item value idxs' acc'
  end.

Definition update (self : t) (item : string) (value : Z) : result t :=
  acc ← update_loop (sign_hashes self) item value (range (k self)) (Z_ self);
  Ok {| k := k self; sign_hashes := sign_hashes self; Z_ := acc |}.

(** [sum(vals)/len(vals)]: the true division of two integers; an empty
    [vals] raises [ZeroDivisionError]. *)
Definition estimate_F2 (self : t) : result float :=
  let vals := (fun z => z * z) <$> Z_ self in
  truediv (foldr Z.add 0 vals) (Z.of_nat (length vals)).

(** [update(item, value)] called on each pair of a stream in turn. *)
Fixpoint update_all (self : t) (ops : list (string * Z)) : result t :=
  match ops with
  | [] => Ok self
  | (x, v) :: ops' => self' ← update self x v; update_all self' ops'
  end.

(** The signed total of a stream under one seed. *)
Fixpoint signed_total (seed : Z) (ops : list (string * Z)) : Z :=
  match ops with
  | [] => 0
  | (x, v) :: ops' => sign x seed * v + signed_total seed ops'
  end.

(** The plain total of the values of a stream. *)
Definition total_value (ops : list (string * Z)) : Z :=
  foldr (fun op acc => op.2 + acc) 0 ops.

End Estimator.
End AMSF2.

(** ** Online transition model (markov_module.py)

    numpy's float64 entries are taken as exact rationals: every sum, quotient
    and comparison below is the one the source writes, without rounding.
    What depends on rounding is stated on [OnlineMarkovModel64] further
    down, where the entries are binary64 floats. *)

Module OnlineMarkovModel.

Local Open Scope Q_scope.

Abbreviation matrix := (list (list Q)).

(** [a > b] on entries. *)
Definition Qgt_bool (a b : Q) : bool := negb (Qle_bool a b).

(** The literal [1e-12]. *)
Definition eps : Q := 1 # 1000000000000.

Definition Qsum (l : list Q) : Q := foldr Qplus 0 l.

Record t : Type := mk {
  states : list string;
  idx : gmap string nat;
  n : nat;
  counts : matrix;
  smoothing : Q;
  cached_P : option matrix
}.

(** [{s:i for i,s in enumerate(self.states)}]: a later duplicate overwrites. *)
Definition make_idx (states : list string) : gmap string nat :=
  foldl (fun m '(i, s) => <[s := i]> m) ∅ (imap pair states).

Definition init (states : list string) (smoothing : Q) : result t :=
  let n := length states in
  Ok {| states := states;
        idx := make_idx states;
        n := n;
        counts := replicate n (replicate n 0);
        smoothing := smoothing;
        cached_P := None |}.

(** [self.counts[i,j] += weight] *)
Definition add_at (m : matrix) (i j : nat) (w : Q) : result matrix :=
  row ← getitem m (Z.of_nat i);
  c ← getitem row (Z.of_nat j);
  row' ← setitem row (Z.of_nat j) (c + w);
  setitem m (Z.of_nat i) row'.

Definition observe_transition (self : t) (from_state to_state : string)
    (weight : Q) : result t :=
  match idx self !! from_state, idx self !! to_state with
  | Some i, Some j =>
      counts' ← add_at (counts self) i j weight;
      Ok {| states := states self; idx := idx self; n := n self;
            counts := counts'; smoothing := smoothing self;
            cached_P := None |}
  | _, _ => Ok self
  end.

(** One row of [C / row_sums], with a zero row sum replaced by [1.0]. *)
Definition normalize_row (smoothing : Q) (row : list Q) : list Q :=
  let C := (fun c => c + smoothing) <$> row in
  let row_sum := Qsum C in
  let row_sum := if Qeq_bool row_sum 0 then 1 else row_sum in
  (fun c => c / row_sum) <$> C.

Definition compute_P (counts : matrix) (smoothing : Q) : matrix :=
  normalize_row smoothing <$> counts.

(** [transition_matrix()]: the matrix and the model with its cache filled. *)
Definition transition_matrix (self : t) : matrix * t :=
  match cached_P self with
  | Some P => (P, self)
  | None =>
      let P := compute_P (counts self) (smoothing self) in
      (P, {| states := states self; idx := idx self; n := n self;
             counts := counts self; smoothing := smoothing self;
             cached_P := Some P |})
  end.

(** [M[i,j]]; every use below has [i, j < n] on an [n]-by-[n] matrix. *)
Definition entry {A} (d : A) (M : list (list A)) (i j : nat) : A :=
  default d (M !! i ≫= fun row => row !! j).

(** [v.dot(P)] for a vector [v] of length [n] and an [n]-by-[n] matrix. *)
Definition vec_dot (n : nat) (v : list Q) (P : matrix) : list Q :=
  (fun j => Qsum (imap (fun i vi => vi * entry 0 P i j) v)) <$> seq 0 n.

(** [{self.states[i]: float(v[i]) for i in range(self.n)}] *)
Definition to_dict (states : list string) (v : list Q) : gmap string Q :=
  foldl (fun m '(s, x) => <[s := x]> m) ∅ (zip states v).

(** [predict_distribution]: [None] in the first component is Python's [None]. *)
Definition predict_distribution (self : t) (current_state : string)
    (steps : Z) : option (gmap string Q) * t :=
  match idx self !! current_state with
  | None => (None, self)
  | Some i =>
      let '(P, self') := transition_matrix self in
      let v := <[i := 1]> (replicate (n self) 0) in
      let v := Nat.iter (Z.to_nat steps) (fun v => vec_dot (n self) v P) v in
      (Some (to_dict (states self) v), self')
  end.

Abbreviation imatrix := (list (list Z)).

(** [(X > 0).astype(int)] after [M.dot(A)] on integer matrices. *)
Definition bool_dot (n : nat) (M A : imatrix) : imatrix :=
  (fun i => (fun j =>
     let s := foldr Z.add 0%Z
                ((fun k => (entry 0 M i k * entry 0 A k j)%Z) <$> seq 0 n) in
     if (0 <? s)%Z then 1%Z else 0%Z) <$> seq 0 n) <$> seq 0 n.

(** The [for power in range(1, max_power+1)] loop of [is_aperiodic]. *)
Fixpoint power_loop (n : nat) (A M : imatrix) (powers : nat) : bool :=
  match powers with
  | O => false
  | S powers' =>
      if forallb (fun i => (0 <? entry 0 M i i)%Z) (seq 0 n) then true
      else power_loop n A (bool_dot n M A) powers'
  end.

Definition is_aperiodic (self : t) : bool * t :=
  let '(P, self') := transition_matrix self in
  if existsb (fun i => Qgt_bool (entry 0 P i i) eps) (seq 0 (n self)) then
    (true, self')
  else
    let max_power := 10%nat in
    let A : imatrix :=
      (fun row : list Q =>
         (fun p => if Qgt_bool p eps then 1%Z else 0%Z) <$> row) <$> P in
    (power_loop (n self) A A max_power, self').

(** The calls a client interleaves on one model. *)
Inductive call : Type :=
  | Observe (from_state to_state : string) (weight : Q)
  | TransitionMatrix
  | PredictDistribution (current_state : string) (steps : Z)
  | IsAperiodic.

Definition step (self : t) (c : call) : result t :=
  match c with
  | Observe f g w => observe_transition self f g w
  | TransitionMatrix => Ok (transition_matrix self).2
  | PredictDistribution s k => Ok (predict_distribution self s k).2
  | IsAperiodic => Ok (is_aperiodic self).2
  end.

Fixpoint run (self : t) (cs : list call) : result t :=
  match cs with
  | [] => Ok self
  | c :: cs' => self' ← step self c; run self' cs'
  end.

(** An observation weight that keeps the property [ok] of every count. *)
Definition weights_keep (ok : Q → Prop) (cs : list call) : Prop :=
  Forall (fun c => match c with
                   | Observe _ _ w => ∀ x, ok x → ok (x + w)
                   | _ => True
                   end) cs.

(** What every model reached from [init] satisfies: the count matrix is
    [n]-by-[n] with entries that are [ok], the index is the one built from
    the state list, and a filled cache holds the matrix of the current
    counts. *)
Definition well_formed (ok : Q → Prop) (self : t) : Prop :=
  n self = length (states self)
  ∧ idx self = make_idx (states self)
  ∧ length (counts self) = n self
  ∧ Forall (fun row => length row = n self ∧ Forall ok row) (counts self)
  ∧ ∀ P, cached_P self = Some P → P = compute_P (counts self) (smoothing self).

(** Two models that differ at most in the cache. *)
Definition same_counts (self self' : t) : Prop :=
  states self' = states self ∧ idx self' = idx self ∧ n self' = n self
  ∧ counts self' = counts self ∧ smoothing self' = smoothing self.

(** The [for v in range(self.n)] body of [is_irreducible].  The Python list
    [stack] is kept with its top, the end that [pop] and [append] work on,
    first. *)
Definition visit (A : imatrix) (u : nat) (st : gset nat * list nat)
    (v : nat) : gset nat * list nat :=
  let '(visited, stack) := st in
  if negb (entry 0%Z A u v =? 0)%Z && bool_decide (v ∉ visited)
  then ({[v]} ∪ visited, v :: stack)
  else st.

(** The [while stack] loop; [None] when [fuel] iterations do not empty the
    stack. *)
Fixpoint search (fuel n : nat) (A : imatrix) (stack : list nat)
    (visited reachable : gset nat) : option (gset nat) :=
  match stack with
  | [] => Some reachable
  | u :: stack' =>
      match fuel with
      | O => None
      | S fuel' =>
          let reachable' := {[u]} ∪ reachable in
          let '(visited', stack'') :=
            foldl (visit A u) (visited, stack') (seq 0 n) in
          search fuel' n A stack'' visited' reachable'
      end
  end.

Definition is_irreducible (fuel : nat) (self : t) : option bool :=
  let A : imatrix :=
    (fun row : list Q =>
       (fun c => if Qgt_bool c 0 then 1%Z else 0%Z) <$> row) <$> counts self in
  reachable ← search fuel (n self) A [0%nat] {[0%nat]} ∅;
  Some (bool_decide (size reachable = n self)).

(** [transition_prob_matrix_readable]: the matrix keyed by state names. *)
Definition transition_prob_matrix_readable (self : t)
    : gmap string (gmap string Q) * t :=
  let '(P, self') := transition_matrix self in
  (foldl (fun out '(i, s) =>
            <[s := to_dict (states self)
                     ((fun j => entry 0 P i j) <$> seq 0 (n self))]> out)
         ∅ (imap pair (states self)),
   self').

(** An observed transition: a positive count between two state indices. *)
Definition observed (self : t) (u v : nat) : Prop :=
  (u < n self)%nat ∧ (v < n self)%nat ∧ 0 < entry 0 (counts self) u v.

(** An edge of the graph that [is_irreducible] searches. *)
Definition edge (A : imatrix) (n : nat) (u v : nat) : Prop :=
  (u < n)%nat ∧ (v < n)%nat ∧ entry 0%Z A u v ≠ 0%Z.

(** What holds at the head of the [while] loop of [is_irreducible]. *)
Definition search_inv (A : imatrix) (n : nat) (stack : list nat)
    (visited reachable : gset nat) : Prop :=
  NoDup stack
  ∧ (∀ x, x ∈ visited ↔ x ∈ reachable ∨ x ∈ stack)
  ∧ (∀ x, x ∈ stack → x ∉ reachable)
  ∧ (∀ x, x ∈ visited → (x < n)%nat ∧ rtc (edge A n) 0%nat x)
  ∧ (∀ u v, u ∈ reachable → edge A n u v → v ∈ visited)
  ∧ 0%nat ∈ visited.

End OnlineMarkovModel.

(** ** The transition model on binary64 floats (markov_module.py)

    The arrays of [OnlineMarkovModel] as numpy holds them, [float64]: the
    counts, the smoothing constant and the matrix that [transition_matrix]
    derives, with IEEE addition, division and comparison.  The order in
    which [sum(axis=1)] adds up a row is numpy's and not in the source:
    [np_sum] is a parameter of the model, and [sum_left], addition from the
    left, is what the closed examples use. *)

Module OnlineMarkovModel64.

Local Open Scope float_scope.
Local Set Warnings "-inexact-float".

Abbreviation fmatrix := (list (list float)).

(** The literal [1e-12]. *)
Definition eps : float := 1e-12.

(** A row added up from the left, starting at [0.0]. *)
Definition sum_left (l : list float) : float := foldl PrimFloat.add 0 l.

Record t : Type := mk {
  states : list string;
  idx : gmap string nat;
  n : nat;
  counts : fmatrix;
  smoothing : float;
  cached_P : option fmatrix
}.

Definition init (states : list string) (smoothing : float) : result t :=
  let n := length states in
  Ok {| states := states;
        idx := OnlineMarkovModel.make_idx states;
        n := n;
        counts := replicate n (replicate n 0);
        smoothing := smoothing;
        cached_P := None |}.

(** [self.counts[i,j] += weight] *)
Definition add_at (m : fmatrix) (i j : nat) (w : float) : result fmatrix :=
  row ← getitem m (Z.of_nat i);
  c ← getitem row (Z.of_nat j);
  row' ← setitem row (Z.of_nat j) (c + w);
  setitem m (Z.of_nat i) row'.

Definition observe_transition (self : t) (from_state to_state : string)
    (weight : float) : result t :=
  match idx self !! from_state, idx self !! to_state with
  | Some i, Some j =>
      counts' ← add_at (counts self) i j weight;
      Ok {| states := states self; idx := idx self; n := n self;
            counts := counts'; smoothing := smoothing self;
            cached_P := None |}
  | _, _ => Ok self
  end.

(** [observe_transition] called on each triple of a history in turn. *)
Fixpoint observe_all (self : t) (obs : list (string * string * float))
    : result t :=
  match obs with
  | [] => Ok self
  | (f, g, w) :: obs' =>
      self' ← observe_transition self f g w; observe_all self' obs'
  end.

Section Sum.

(** [sum(axis=1)] on one row. *)
Variable np_sum : list float → float.

(** One entry of [row_sums]: the total of a row of [counts + smoothing],
    with [1.0] in place of a total equal to zero. *)
Definition row_total (smoothing : float) (row : list float) : float :=
  let row_sum := np_sum ((fun c => c + smoothing) <$> row) in
  if PrimFloat.eqb row_sum 0 then 1 else row_sum.

(** One row of [C / row_sums]. *)
Definition normalize_row (smoothing : float) (row : list float)
    : list float :=
  (fun c => c / row_total smoothing row) <$> ((fun c => c + smoothing) <$> row).

Definition compute_P (counts : fmatrix) (smoothing : float) : fmatrix :=
  normalize_row smoothing <$> counts.

(** [transition_matrix()]: the matrix and the model with its cache filled. *)
Definition transition_matrix (self : t) : fmatrix * t :=
  match cached_P self with
  | Some P => (P, self)
  | None =>
      let P := compute_P (counts self) (smoothing self) in
      (P, {| states := states self; idx := idx self; n := n self;
             counts := counts self; smoothing := smoothing self;
             cached_P := Some P |})
  end.

Definition is_aperiodic (self : t) : bool * t :=
  let '(P, self') := transition_matrix self in
  if existsb (fun i => PrimFloat.ltb eps (OnlineMarkovModel.entry 0 P i i))
             (seq 0 (n self))
  then (true, self')
  else
    let max_power := 10%nat in
    let A : OnlineMarkovModel.imatrix :=
      (fun row : list float =>
         (fun p => if PrimFloat.ltb eps p then 1%Z else 0%Z) <$> row) <$> P in
    (OnlineMarkovModel.power_loop (n self) A A max_power, self').

End Sum.

(** The exact value of a finite float; [0] for the others. *)
Definition exact (x : float) : Q :=
  match FloatOps.Prim2SF x with
  | SpecFloat.S754_finite s m e =>
      ((if s then -1 else 1) * inject_Z (Z.pos m) * Qpower 2 e)%Q
  | _ => 0%Q
  end.

(** The smoothed diagonal probability of state [i] in exact arithmetic:
    [(counts[i][i] + smoothing) / (row-i total + n * smoothing)]. *)
Definition smoothed_diagonal (self : t) (i : nat) : Q :=
  ((exact (OnlineMarkovModel.entry 0%float (counts self) i i)
    + exact (smoothing self))
   / (OnlineMarkovModel.Qsum (exact <$> default [] (counts self !! i))
      + inject_Z (Z.of_nat (n self)) * exact (smoothing self)))%Q.

(** What every model reached from [init] by observations satisfies. *)
Definition well_formed (self : t) : Prop :=
  n self = length (states self)
  ∧ idx self = OnlineMarkovModel.make_idx (states self)
  ∧ length (counts self) = n self
  ∧ Forall (fun row => length row = n self) (counts self)
  ∧ cached_P self = None.

End OnlineMarkovModel64.

(** ** The standard library's [heapq]: its contract and its algorithm *)

Module Heapq.

(** Heap entries are the tuples [(-hash, item)]; Python compares them
    lexicographically, strings by code point. *)
Abbreviation entry := (Z * string)%type.

(** [e1 < e2] on tuples. *)
Definition entry_ltb (e1 e2 : entry) : bool :=
  (e1.1 <? e2.1) || ((e1.1 =? e2.1) && String.ltb e1.2 e2.2).

(** [not (e2 < e1)]. *)
Definition entry_le (e1 e2 : entry) : Prop := entry_ltb e2 e1 = false.

(** What the documentation of [heapq] promises of [heappush] and
    [heapreplace] on a list that satisfies the heap invariant: the invariant
    is kept, the smallest entry is at index 0, [heappush] adds its argument,
    and [heapreplace] removes the entry at index 0 and adds its argument
    (raising [IndexError] on an empty heap). *)
Class Ops : Type := {
  is_heap : list entry → Prop;
  heappush : list entry → entry → list entry;
  heapreplace : list entry → entry → result (list entry);
  is_heap_nil : is_heap [];
  is_heap_min : ∀ e h, is_heap (e :: h) → Forall (entry_le e) h;
  heappush_is_heap : ∀ h x, is_heap h → is_heap (heappush h x);
  heappush_perm : ∀ h x, is_heap h → heappush h x ≡ₚ x :: h;
  heapreplace_nil : ∀ x, heapreplace [] x = Raise IndexError;
  heapreplace_cons : ∀ e h x, is_heap (e :: h) →
    ∃ h', heapreplace (e :: h) x = Ok h' ∧ is_heap h' ∧ h' ≡ₚ x :: h
}.

(** The algorithm of the library module (CPython's Lib/heapq.py, which the
    repository imports and does not contain), on a list used as an array.
    [(pos - 1) >> 1] is [parent pos]. *)
Definition parent (pos : nat) : nat := (pos - 1) / 2.

(** The [while pos > startpos] loop of [_siftdown]: [newitem] moves up from
    [pos] while it is smaller than the parent, the parents moving down. *)
Fixpoint siftdown_loop (fuel : nat) (heap : list entry) (startpos pos : nat)
    (newitem : entry) : list entry :=
  match fuel with
  | O => <[pos := newitem]> heap
  | S fuel' =>
      if (startpos <? pos)%nat then
        match heap !! parent pos with
        | Some p =>
            if entry_ltb newitem p
            then siftdown_loop fuel' (<[pos := p]> heap) startpos (parent pos)
                               newitem
            else <[pos := newitem]> heap
        | None => <[pos := newitem]> heap
        end
      else <[pos := newitem]> heap
  end.

Definition _siftdown (heap : list entry) (startpos pos : nat) : list entry :=
  match heap !! pos with
  | Some newitem => siftdown_loop pos heap startpos pos newitem
  | None => heap
  end.

(** The child that [_siftup] moves up: the right one when it exists and the
    left one is not smaller than it, the left one otherwise. *)
Definition smaller_child (heap : list entry) (endpos pos : nat) : nat :=
  let childpos := (2 * pos + 1)%nat in
  let rightpos := (childpos + 1)%nat in
  match heap !! childpos, heap !! rightpos with
  | Some l, Some r =>
      if (rightpos <? endpos)%nat && negb (entry_ltb l r)
      then rightpos else childpos
  | _, _ => childpos
  end.

(** The [while childpos < endpos] loop of [_siftup]: the smaller child moves
    up into [pos] until [pos] is a leaf; the leaf position is returned. *)
Fixpoint siftup_loop (fuel : nat) (heap : list entry) (endpos pos : nat) :
    list entry * nat :=
  match fuel with
  | O => (heap, pos)
  | S fuel' =>
      if (2 * pos + 1 <? endpos)%nat then
        let childpos := smaller_child heap endpos pos in
        match heap !! childpos with
        | Some c => siftup_loop fuel' (<[pos := c]> heap) endpos childpos
        | None => (heap, pos)
        end
      else (heap, pos)
  end.

Definition _siftup (heap : list entry) (pos : nat) : list entry :=
  match heap !! pos with
  | Some newitem =>
      let '(heap', leaf) := siftup_loop (length heap) heap (length heap) pos in
      _siftdown (<[leaf := newitem]> heap') pos leaf
  | None => heap
  end.

Definition array_heappush (heap : list entry) (item : entry) : list entry :=
  _siftdown (heap ++ [item]) 0 (length heap).

Definition array_heapreplace (heap : list entry) (item : entry) :
    result (list entry) :=
  match heap with
  | [] => Raise IndexError
  | _ :: _ => Ok (_siftup (<[0%nat := item]> heap) 0)
  end.

(** The entry at [i] is not smaller than its parent. *)
Definition edge_ok (h : list entry) (i : nat) : Prop :=
  ∀ x p, h !! i = Some x → h !! parent i = Some p → entry_le p x.

(** The heap invariant: no entry is smaller than its parent. *)
Definition array_heap (h : list entry) : Prop :=
  ∀ i, (1 <= i)%nat → edge_ok h i.

(** The state of [_siftdown]'s loop: with [x] written at [pos] the heap
    invariant holds everywhere except between [pos] and its parent, and the
    children of [pos] are not smaller than the parent of [pos]. *)
Definition up_inv (h : list entry) (pos : nat) (x : entry) : Prop :=
  (pos < length h)%nat
  ∧ (∀ i, (1 <= i)%nat → i ≠ pos → edge_ok (<[pos := x]> h) i)
  ∧ (∀ i c p, (1 <= pos)%nat → (1 <= i)%nat → parent i = pos →
       h !! i = Some c → h !! parent pos = Some p → entry_le p c).

(** The state of [_siftup]'s loop: the heap invariant holds between all
    positions other than [pos], and the children of [pos] are not smaller
    than the parent of [pos]. *)
Definition down_inv (h : list entry) (pos : nat) : Prop :=
  (pos < length h)%nat
  ∧ (∀ i, (1 <= i)%nat → i ≠ pos → parent i ≠ pos → edge_ok h i)
  ∧ (∀ i c p, (1 <= pos)%nat → (1 <= i)%nat → parent i = pos →
       h !! i = Some c → h !! parent pos = Some p → entry_le p c).

End Heapq.

(** ** Min-hash sampler (minwise_sampler.py) *)

Module MinWiseSampler.
Section Sampler.

(** [int(hashlib.sha256(s.encode('utf-8')).hexdigest(), 16)] *)
Variable sha256_int : string → Z.
Context {heapq : Heapq.Ops}.

Record t : Type := mk {
  k : Z;
  heap : list Heapq.entry
}.

Definition init (k : Z) : result t := Ok {| k := k; heap := [] |}.

Definition _hash_item (item_str : string) : Z := sha256_int item_str.

Definition consider (self : t) (item : string) : result t :=
  let hval := _hash_item item in
  if Z.of_nat (length (heap self)) <? k self then
    Ok {| k := k self; heap := Heapq.heappush (heap self) (- hval, item) |}
  else
    top ← getitem (heap self) 0;
    if hval <? - top.1 then
      h ← Heapq.heapreplace (heap self) (- hval, item);
      Ok {| k := k self; heap := h |}
    else Ok self.

Definition sample (self : t) : list string := snd <$> heap self.

(** [consider] called on each item of a stream in turn. *)
Fixpoint consider_all (self : t) (items : list string) : result t :=
  match items with
  | [] => Ok self
  | x :: items' => self' ← consider self x; consider_all self' items'
  end.

(** The sampler holds [min(kk, len(seen))] of the items [seen] so far, each
    under the negation of its hash, and no item left out ([rest]) has a
    smaller hash than a retained one. *)
Definition retains (self : t) (kk : Z) (seen rest : list string) : Prop :=
  k self = kk
  ∧ Heapq.is_heap (heap self)
  ∧ Forall (fun e => e.1 = - _hash_item e.2) (heap self)
  ∧ seen ≡ₚ sample self ++ rest
  ∧ Z.of_nat (length (heap self)) <= kk
  ∧ (rest ≠ [] → Z.of_nat (length (heap self)) = kk)
  ∧ (∀ x y, x ∈ sample self → y ∈ rest → _hash_item x <= _hash_item y).

End Sampler.
End MinWiseSampler.

(** ** Membership filter (bloom_filter_module.py) *)

Module BloomFilter.
Section Filter.

(** The hash of a key under one seed. *)
Variable hash : Z → string → Z.

(** Modelled from the spec: the class [BloomFilter] of the package
    [pybloom_live], which the module imports and whose source is not part of
    the repository.  The state is a fixed-size bit array plus a fixed list of
    hash seeds; each seed sends a key to one bit position. *)
Record t : Type := mk {
  bits : list bool;
  seeds : list Z
}.

(** Modelled from the spec: a filter is created with all bits clear. *)
Definition create (num_bits : Z) (seeds : list Z) : t :=
  {| bits := repeat_list false num_bits; seeds := seeds |}.

(** Modelled from the spec: the bit position of a key under one seed. *)
Definition position (self : t) (key : string) (seed : Z) : nat :=
  Z.to_nat (hash seed key mod Z.of_nat (length (bits self))).

(** Modelled from the spec: [insert] sets all the key's bits. *)
Definition insert (self : t) (key : string) : t :=
  {| bits := foldl (fun b s => <[position self key s := true]> b)
                   (bits self) (seeds self);
     seeds := seeds self |}.

(** Modelled from the spec: [contains] is true only if all the key's bits
    are set. *)
Definition contains (self : t) (key : string) : bool :=
  forallb (fun s => bool_decide (bits self !! position self key s = Some true))
          (seeds self).

(** [mark_play_analyzed] and [check_play_analyzed], with the module-level
    filter [bf] passed explicitly. *)
Definition mark_play_analyzed (bf : t) (play_key : string) : t :=
  insert bf play_key.

Definition check_play_analyzed (bf : t) (play_key : string) : bool :=
  contains bf play_key.

Definition mark_all (bf : t) (keys : list string) : t :=
  foldl mark_play_analyzed bf keys.

End Filter.
End BloomFilter.

(** * Properties *)

Module PyFacts.

Lemma norm_index_in_range {A} (l : list A) (i : Z) :
  0 <= i < Z.of_nat (length l) → norm_index l i = Ok (Z.to_nat i).
Proof.
  intros Hi. unfold norm_index.
  destruct (0 <=? i) eqn:E1; [|lia].
  destruct (i <? Z.of_nat (length l)) eqn:E2; [done|lia].
Qed.

Lemma getitem_in_range {A} (l : list A) (i : Z) :
  0 <= i < Z.of_nat (length l) →
  ∃ x, l !! Z.to_nat i = Some x ∧ getitem l i = Ok x.
Proof.
  intros Hi. unfold getitem. rewrite norm_index_in_range by done. simpl.
  destruct (lookup_lt_is_Some_2 l (Z.to_nat i)) as [x Hx]; [lia|].
  exists x. by rewrite Hx.
Qed.

Lemma getitem_nil {A} (i : Z) : getitem (@nil A) i = Raise IndexError.
Proof.
  unfold getitem, norm_index.
  destruct ((0 <=? i) && _); [done|]. by destruct ((_ <=? i) && _).
Qed.

Lemma foldl_min_le (xs : list Z) (x b : Z) :
  b <= x → Forall (fun y => b <= y) xs → b <= foldl Z.min x xs.
Proof.
  revert x. induction xs as [|y ys IH]; intros x Hx Hall; simpl; [done|].
  inversion Hall; subst. apply IH; [lia|done].
Qed.

Lemma min_lower_bound (xs : list Z) (b : Z) :
  xs ≠ [] → Forall (fun y => b <= y) xs → ∃ v, min_ xs = Ok v ∧ b <= v.
Proof.
  destruct xs as [|x xs]; [done|]. intros _ Hall. inversion Hall; subst.
  eexists; split; [reflexivity|]. by apply foldl_min_le.
Qed.

End PyFacts.
Import PyFacts.

(** ** Frequency sketch *)

Module CountMinSketchFacts.
Import CountMinSketch.
Section Facts.

Variable mmh3_hash : string → Z → Z.
Variable randint : Z → nat → Z.

Local Abbreviation add := (add mmh3_hash).
Local Abbreviation add_loop := (add_loop mmh3_hash).
Local Abbreviation cells := (cells mmh3_hash).
Local Abbreviation estimate := (estimate mmh3_hash).
Local Abbreviation add_all := (add_all mmh3_hash).
Local Abbreviation init := (init randint).
Local Abbreviation column := (column mmh3_hash).
Local Abbreviation bump := (bump mmh3_hash).
Local Abbreviation bounded := (bounded mmh3_hash).

Lemma insert_as_alter {A} (f : A → A) (l : list A) (i : nat) (x : A) :
  l !! i = Some x → <[i := f x]> l = alter f i l.
Proof.
  revert i. induction l as [|y l IH]; intros [|i] Hi; simpl in *; try done.
  - by inversion Hi.
  - f_equal. by apply IH.
Qed.

Lemma column_lt (w : Z) (key : string) (s : Z) :
  0 < w → 0 <= mmh3_hash key s mod w < w.
Proof. intros Hw. by apply Z.mod_pos_bound. Qed.

Lemma add_loop_rows (w : Z) (key : string) (count : Z) (ss : list Z) :
  0 < w →
  ∀ (i : nat) (tbl : list (list Z)),
    length tbl = (i + length ss)%nat →
    Forall (fun row => Z.of_nat (length row) = w) tbl →
    add_loop w key count i ss tbl
    = Ok (take i tbl ++ zip_with (bump w key count) ss (drop i tbl)).
Proof.
  intros Hw. induction ss as [|s ss IH]; intros i tbl Hlen Hrows.
  - simpl in *. rewrite take_ge by lia. by rewrite app_nil_r.
  - simpl in Hlen. cbn [CountMinSketch.add_loop].
    unfold mod_. destruct (Z.eqb_spec w 0) as [?|_]; [lia|]. cbn [mbind result_bind].
    destruct (getitem_in_range tbl (Z.of_nat i)) as (row & Hrow & ->); [lia|].
    rewrite Nat2Z.id in Hrow. cbn [mbind result_bind].
    assert (Hrl : Z.of_nat (length row) = w).
    { eapply Forall_lookup_1 in Hrows; [|exact Hrow]. done. }
    pose proof (column_lt w key s Hw) as Hcol.
    destruct (getitem_in_range row (mmh3_hash key s mod w)) as (c & Hc & ->);
      [lia|].
    cbn [mbind result_bind]. unfold setitem.
    rewrite !norm_index_in_range by lia. cbn [mbind result_bind].
    rewrite Nat2Z.id. rewrite (insert_as_alter (fun c => c + count)) by done.
    fold (column w key s). fold (bump w key count s row).
    rewrite IH.
    + rewrite (take_S_r _ _ (bump w key count s row)).
      2:{ apply list_lookup_insert_eq. lia. }
      rewrite take_insert_ge by lia. rewrite drop_insert_lt by lia.
      rewrite (drop_S tbl row i Hrow). simpl. by rewrite <- app_assoc.
    + rewrite length_insert. lia.
    + apply Forall_insert; [done|]. unfold bump. by rewrite length_alter.
Qed.

Lemma add_shaped (self : t) (key : string) (count : Z) :
  0 < width self → shaped (width self) (seeds self) (tables self) →
  ∃ self', add self key count = Ok self'
    ∧ width self' = width self ∧ seeds self' = seeds self
    ∧ tables self' = zip_with (bump (width self) key count)
                              (seeds self) (tables self).
Proof.
  intros Hw [Hlen Hrows]. unfold CountMinSketch.add.
  rewrite add_loop_rows by (done || (simpl; lia)).
  rewrite take_0, drop_0. simpl. eexists. by split_and!.
Qed.

Lemma bump_shaped (w : Z) (key : string) (count : Z) (ss : list Z)
    (tbl : list (list Z)) :
  shaped w ss tbl → shaped w ss (zip_with (bump w key count) ss tbl).
Proof.
  intros [Hlen Hrows]. split.
  - rewrite length_zip_with. lia.
  - apply Forall_lookup_2. intros i row Hi.
    apply lookup_zip_with_Some in Hi as (s & row0 & -> & _ & Hrow0).
    unfold bump. rewrite length_alter.
    by eapply Forall_lookup_1 in Hrows.
Qed.


Lemma bump_bounded (b : string → Z) (w : Z) (k : string) (count : Z)
    (ss : list Z) (tbl : list (list Z)) :
  0 <= count → bounded b w ss tbl →
  bounded (fun key => b key + (if String.eqb k key then count else 0))
          w ss (zip_with (bump w k count) ss tbl).
Proof.
  intros Hc Hb key i s row Hs Hrow.
  apply lookup_zip_with_Some in Hrow as (s' & row0 & -> & Hs' & Hrow0).
  assert (s' = s) as -> by congruence.
  destruct (Hb key i s row0 Hs Hrow0) as (c & Hcell & Hle).
  unfold CountMinSketch.bump.
  destruct (decide (column w k s = column w key s)) as [Heq|Hne].
  - rewrite Heq, list_lookup_alter_eq, Hcell. simpl.
    eexists; split; [done|]. destruct (String.eqb k key); lia.
  - rewrite list_lookup_alter_ne by done. exists c; split; [done|].
    destruct (String.eqb_spec k key) as [->|_]; [done|lia].
Qed.

Lemma add_all_bounded (ops : list (string * Z)) :
  ∀ (self : t) (b : string → Z),
    0 < width self →
    shaped (width self) (seeds self) (tables self) →
    bounded b (width self) (seeds self) (tables self) →
    Forall (fun op => 0 <= op.2) ops →
    ∃ self', add_all self ops = Ok self'
      ∧ width self' = width self ∧ seeds self' = seeds self
      ∧ shaped (width self) (seeds self) (tables self')
      ∧ bounded (fun key => b key + true_count key ops)
                (width self) (seeds self) (tables self').
Proof.
  induction ops as [|[k c] ops IH]; intros self b Hw Hsh Hb Hnn.
  - exists self. split_and!; try done.
    intros key i s row Hs Hrow. destruct (Hb key i s row Hs Hrow) as (x & ? & ?).
    exists x. simpl. split; [done|lia].
  - inversion Hnn as [|? ? Hc Hnn']; subst. simpl in Hc.
    destruct (add_shaped self k c Hw Hsh) as (self1 & Hadd & Hw1 & Hs1 & Ht1).
    cbn [CountMinSketch.add_all]. rewrite Hadd. cbn [mbind result_bind].
    destruct (IH self1 (fun key => b key + (if String.eqb k key then c else 0)))
      as (self' & Hrun & Hw' & Hs' & Hsh' & Hb').
    + by rewrite Hw1.
    + rewrite Hw1, Hs1, Ht1. by apply bump_shaped.
    + rewrite Hw1, Hs1, Ht1. by apply bump_bounded.
    + done.
    + exists self'. rewrite Hw1, Hs1 in *. split_and!; try done.
      intros key i s row Hs Hrow.
      destruct (Hb' key i s row Hs Hrow) as (x & ? & ?).
      exists x. split; [done|]. cbn [CountMinSketch.true_count]. lia.
Qed.

Lemma cells_bounded (b : string → Z) (w : Z) (key : string) (ss : list Z) :
  0 < w →
  ∀ (i : nat) (tbl : list (list Z)),
    (∀ j s, ss !! j = Some s →
       ∃ row c, tbl !! (i + j)%nat = Some row ∧ Z.of_nat (length row) = w
         ∧ row !! column w key s = Some c ∧ b key <= c) →
    ∃ vs, cells w key i ss tbl = Ok vs ∧ length vs = length ss
      ∧ Forall (fun v => b key <= v) vs.
Proof.
  intros Hw. induction ss as [|s ss IH]; intros i tbl Hrows.
  - exists []. by split_and!.
  - cbn [CountMinSketch.cells]. unfold mod_.
    destruct (Z.eqb_spec w 0) as [?|_]; [lia|]. cbn [mbind result_bind].
    destruct (Hrows 0%nat s eq_refl) as (row & c & Hrow & Hlen & Hc & Hle).
    rewrite Nat.add_0_r in Hrow.
    destruct (getitem_in_range tbl (Z.of_nat i)) as (row' & Hrow' & ->).
    { apply lookup_lt_Some in Hrow. lia. }
    rewrite Nat2Z.id in Hrow'. assert (row' = row) as -> by congruence.
    cbn [mbind result_bind].
    pose proof (column_lt w key s Hw) as Hcol.
    destruct (getitem_in_range row (mmh3_hash key s mod w)) as (c' & Hc' & ->);
      [lia|].
    assert (c' = c) as -> by (unfold CountMinSketch.column in Hc; congruence).
    cbn [mbind result_bind].
    destruct (IH (S i) tbl) as (vs & -> & Hvl & Hvs).
    { intros j s' Hj. specialize (Hrows (S j) s' Hj).
      by replace (S i + j)%nat with (i + S j)%nat by lia. }
    cbn [mbind result_bind]. exists (c :: vs). split_and!; [done|simpl; lia|].
    by constructor.
Qed.

Lemma init_shaped (w d seed : Z) :
  0 <= w →
  ∃ self, init w d seed = Ok self ∧ width self = w
    ∧ length (seeds self) = Z.to_nat d
    ∧ shaped w (seeds self) (tables self)
    ∧ (0 < w → bounded (fun _ => 0) w (seeds self) (tables self)).
Proof.
  intros Hw. eexists. split; [reflexivity|]. simpl. split_and!; [done|..].
  - unfold range. by rewrite length_fmap, length_seq.
  - split; [by rewrite !length_fmap|].
    apply Forall_fmap, Forall_forall. intros ? _. simpl.
    unfold repeat_list. rewrite length_replicate. lia.
  - intros Hw' key i s row _ Hrow.
    apply list_lookup_fmap_Some in Hrow as (? & -> & _).
    exists 0. split; [|lia]. unfold repeat_list.
    apply lookup_replicate_2. unfold CountMinSketch.column.
    pose proof (column_lt w key s Hw'). lia.
Qed.

(** C1. With a sketch of positive width and depth and any sequence of
    [add(key, count)] calls whose counts are non-negative, every call
    succeeds and [estimate(key)] returns a value that is at least the total
    added for [key]: the sketch never under-estimates. *)
Theorem estimate_never_underestimates (w d seed : Z)
    (ops : list (string * Z)) (key : string) :
  0 < w → 0 < d → Forall (fun op => 0 <= op.2) ops →
  ∃ self v,
    (self0 ← init w d seed; add_all self0 ops) = Ok self
    ∧ estimate self key = Ok v
    ∧ true_count key ops <= v.
Proof.
  intros Hw Hd Hnn.
  destruct (init_shaped w d seed) as (self0 & -> & Hw0 & Hlen0 & Hsh0 & Hb0);
    [lia|].
  specialize (Hb0 Hw). cbn [mbind result_bind].
  destruct (add_all_bounded ops self0 (fun _ => 0)) as
    (self & Hrun & Hw1 & Hs1 & [Hlen Hrows] & Hb); rewrite ?Hw0; try done.
  rewrite Hw0 in *.
  destruct (cells_bounded (fun k => 0 + true_count k ops) w key (seeds self) Hw
              0%nat (tables self)) as (vs & Hcells & Hvl & Hvs).
  { intros j s Hj. rewrite Hs1 in Hj. simpl.
    destruct (lookup_lt_is_Some_2 (tables self) j) as [row Hrow].
    { apply lookup_lt_Some in Hj. lia. }
    destruct (Hb key j s row Hj Hrow) as (c & Hc & Hle).
    exists row, c. split_and!; try done.
    by eapply Forall_lookup_1 in Hrows. }
  destruct (min_lower_bound vs (0 + true_count key ops)) as (v & Hmin & Hv).
  { intros ->. simpl in Hvl. rewrite Hs1, Hlen0 in Hvl. lia. }
  { done. }
  exists self, v. split; [done|]. split; [|lia].
  unfold CountMinSketch.estimate. rewrite Hw1, Hcells. done.
Qed.

End Facts.

(** C1 at a concrete sketch: width 4, depth 2, two keys that collide. *)
Lemma estimate_never_underestimates_witness :
  let hash := fun (key : string) (s : Z) => Z.of_nat (String.length key) + s in
  let rand := fun (seed : Z) (i : nat) => seed + Z.of_nat i in
  let ops := [("a", 3); ("b", 2); ("a", 1)]%string in
  ∃ self v,
    (self0 ← init rand 4 2 42; add_all hash self0 ops) = Ok self
    ∧ estimate hash self "a" = Ok v
    ∧ true_count "a" ops <= v.
Proof.
  intros hash rand ops.
  apply (estimate_never_underestimates hash rand 4 2 42 ops "a"); [lia|lia|].
  repeat constructor; simpl; lia.
Defined.

Section Exact.

Variable mmh3_hash : string → Z → Z.
Variable randint : Z → nat → Z.

Local Abbreviation add_all := (add_all mmh3_hash).
Local Abbreviation estimate := (estimate mmh3_hash).
Local Abbreviation cells := (cells mmh3_hash).
Local Abbreviation init := (init randint).
Local Abbreviation column := (column mmh3_hash).
Local Abbreviation bump := (bump mmh3_hash).
Local Abbreviation column_total := (column_total mmh3_hash).

Lemma bump_exact (b : Z → nat → Z) (w : Z) (k : string) (count : Z)
    (ss : list Z) (tbl : list (list Z)) :
  exact b ss tbl →
  exact (fun s col =>
           b s col + (if decide (column w k s = col) then count else 0))
        ss (zip_with (bump w k count) ss tbl).
Proof.
  intros Hb i s row col Hs Hrow Hcol.
  apply lookup_zip_with_Some in Hrow as (s' & row0 & -> & Hs' & Hrow0).
  assert (s' = s) as -> by congruence.
  unfold CountMinSketch.bump in *. rewrite length_alter in Hcol.
  pose proof (Hb i s row0 col Hs Hrow0 Hcol) as Hcell.
  destruct (decide (column w k s = col)) as [->|Hne].
  - by rewrite list_lookup_alter_eq, Hcell.
  - rewrite list_lookup_alter_ne by done. rewrite Hcell. f_equal. lia.
Qed.

Lemma add_all_exact (ops : list (string * Z)) :
  ∀ (self : t) (b : Z → nat → Z),
    0 < width self →
    shaped (width self) (seeds self) (tables self) →
    exact b (seeds self) (tables self) →
    ∃ self', add_all self ops = Ok self'
      ∧ width self' = width self ∧ seeds self' = seeds self
      ∧ shaped (width self) (seeds self) (tables self')
      ∧ exact (fun s col => b s col + column_total (width self) s col ops)
              (seeds self) (tables self').
Proof.
  induction ops as [|[k c] ops IH]; intros self b Hw Hsh Hb.
  - exists self. split_and!; try done.
    intros i s row col Hs Hrow Hcol. rewrite (Hb i s row col) by done.
    simpl. f_equal. lia.
  - destruct (add_shaped mmh3_hash self k c Hw Hsh)
      as (self1 & Hadd & Hw1 & Hs1 & Ht1).
    cbn [CountMinSketch.add_all]. rewrite Hadd. cbn [mbind result_bind].
    destruct (IH self1
                (fun s col => b s col
                   + (if decide (column (width self) k s = col) then c else 0)))
      as (self' & Hrun & Hw' & Hs' & Hsh' & Hb').
    + by rewrite Hw1.
    + rewrite Hw1, Hs1, Ht1. by apply bump_shaped.
    + rewrite Hs1, Ht1. by apply bump_exact.
    + exists self'. rewrite Hw1, Hs1 in *. split_and!; try done.
      intros i s row col Hs Hrow Hcol.
      rewrite (Hb' i s row col) by done.
      cbn [CountMinSketch.column_total]. f_equal. lia.
Qed.

Lemma cells_exact (b : Z → nat → Z) (w : Z) (key : string) (ss : list Z) :
  0 < w →
  ∀ (i : nat) (tbl : list (list Z)),
    (∀ j s, ss !! j = Some s →
       ∃ row, tbl !! (i + j)%nat = Some row ∧ Z.of_nat (length row) = w
         ∧ row !! column w key s = Some (b s (column w key s))) →
    cells w key i ss tbl = Ok ((fun s => b s (column w key s)) <$> ss).
Proof.
  intros Hw. induction ss as [|s ss IH]; intros i tbl Hrows; [done|].
  cbn [CountMinSketch.cells]. unfold mod_.
  destruct (Z.eqb_spec w 0) as [?|_]; [lia|]. cbn [mbind result_bind].
  destruct (Hrows 0%nat s eq_refl) as (row & Hrow & Hlen & Hc).
  rewrite Nat.add_0_r in Hrow.
  destruct (getitem_in_range tbl (Z.of_nat i)) as (row' & Hrow' & ->).
  { apply lookup_lt_Some in Hrow. lia. }
  rewrite Nat2Z.id in Hrow'. assert (row' = row) as -> by congruence.
  cbn [mbind result_bind].
  pose proof (column_lt mmh3_hash w key s Hw) as Hcol.
  destruct (getitem_in_range row (mmh3_hash key s mod w)) as (c' & Hc' & ->);
    [lia|].
  unfold CountMinSketch.column in Hc. rewrite Hc in Hc'. injection Hc' as <-.
  cbn [mbind result_bind]. rewrite (IH (S i) tbl).
  - done.
  - intros j s' Hj. specialize (Hrows (S j) s' Hj).
    by replace (S i + j)%nat with (i + S j)%nat by lia.
Qed.

Lemma init_exact (w d seed : Z) :
  0 <= w →
  ∃ self, init w d seed = Ok self ∧ width self = w
    ∧ seeds self = randint seed <$> range d
    ∧ shaped w (seeds self) (tables self)
    ∧ exact (fun _ _ => 0) (seeds self) (tables self).
Proof.
  intros Hw. eexists. split; [reflexivity|]. simpl. split_and!; [done|done|..].
  - split; [by rewrite !length_fmap|].
    apply Forall_fmap, Forall_forall. intros ? _. simpl.
    unfold repeat_list. rewrite length_replicate. lia.
  - intros i s row col _ Hrow Hcol.
    apply list_lookup_fmap_Some in Hrow as (? & -> & _).
    unfold repeat_list in *. rewrite length_replicate in Hcol.
    by apply lookup_replicate_2.
Qed.

Lemma run_cells (w d seed : Z) (ops : list (string * Z)) :
  0 < w →
  ∃ self,
    (self0 ← init w d seed; add_all self0 ops) = Ok self
    ∧ width self = w ∧ seeds self = randint seed <$> range d
    ∧ ∀ key, cells w key 0 (seeds self) (tables self)
        = Ok ((fun s => column_total w s (column w key s) ops)
                <$> seeds self).
Proof.
  intros Hw.
  destruct (init_exact w d seed) as (self0 & -> & Hw0 & Hs0 & Hsh0 & Hb0);
    [lia|].
  cbn [mbind result_bind].
  destruct (add_all_exact ops self0 (fun _ _ => 0)) as
    (self & Hrun & Hw1 & Hs1 & [Hlen Hrows] & Hb); rewrite ?Hw0; try done.
  rewrite Hw0 in *. exists self. split_and!; [done|done|congruence|].
  intros key.
  rewrite (cells_exact (fun s col => 0 + column_total w s col ops) w key
             (seeds self) Hw 0%nat (tables self)); [done|].
  intros j s Hj. simpl. rewrite Hs1 in Hj.
  destruct (lookup_lt_is_Some_2 (tables self) j) as [row Hrow].
  { apply lookup_lt_Some in Hj. lia. }
  pose proof (Forall_lookup_1 _ _ _ _ Hrows Hrow) as Hrl. simpl in Hrl.
  exists row. split_and!; try done. apply (Hb j s row); try done.
  pose proof (column_lt mmh3_hash w key s Hw).
  unfold CountMinSketch.column. lia.
Qed.

(** After any sequence of [add] calls (counts of either sign) on a sketch of
    positive width, [estimate(key)] is the minimum, over the rows, of the
    total of all counts whose key shares the column of [key] in that row. *)
Theorem estimate_is_min_of_column_totals (w d seed : Z)
    (ops : list (string * Z)) (key : string) :
  0 < w →
  ∃ self,
    (self0 ← init w d seed; add_all self0 ops) = Ok self
    ∧ estimate self key
      = min_ ((fun s => column_total w s (column w key s) ops)
                <$> (randint seed <$> range d)).
Proof.
  intros Hw. destruct (run_cells w d seed ops Hw) as (self & Hrun & Hw1 & Hs & Hc).
  exists self. split; [done|].
  unfold CountMinSketch.estimate. rewrite Hw1, Hc. cbn [mbind result_bind].
  by rewrite Hs.
Qed.

Lemma column_total_ge (w : Z) (s : Z) (key : string)
    (ops : list (string * Z)) :
  Forall (fun op => 0 <= op.2) ops →
  true_count key ops <= column_total w s (column w key s) ops.
Proof.
  induction 1 as [|[k c] ops Hc _ IH]; simpl in *; [done|].
  destruct (String.eqb_spec k key) as [->|Hne].
  - rewrite decide_True by done. lia.
  - destruct (decide _); lia.
Qed.

Lemma column_total_alone (w : Z) (s : Z) (key : string)
    (ops : list (string * Z)) :
  Forall (fun op => op.1 ≠ key → column w op.1 s ≠ column w key s) ops →
  column_total w s (column w key s) ops = true_count key ops.
Proof.
  induction 1 as [|[k c] ops Hc _ IH]; simpl in *; [done|].
  destruct (String.eqb_spec k key) as [->|Hne].
  - rewrite decide_True by done. lia.
  - rewrite decide_False by auto. lia.
Qed.

Lemma foldl_min_reached (xs : list Z) :
  ∀ x t, (x = t ∨ t ∈ xs) → t <= x → Forall (fun y => t <= y) xs →
    foldl Z.min x xs = t.
Proof.
  induction xs as [|y ys IH]; intros x t Hin Hx Hall; simpl.
  - destruct Hin as [?|Hin]; [done|]. by apply elem_of_nil in Hin.
  - inversion Hall as [|? ? Hy Hall']; subst. apply IH; [|lia|done].
    destruct Hin as [->|Hin]; [left; lia|].
    apply elem_of_cons in Hin as [->|Hin]; [left; lia|by right].
Qed.

Lemma min_reached (xs : list Z) (t : Z) :
  t ∈ xs → Forall (fun y => t <= y) xs → min_ xs = Ok t.
Proof.
  destruct xs as [|x xs]; intros Hin Hall; [by apply elem_of_nil in Hin|].
  inversion Hall; subst. simpl. f_equal.
  apply foldl_min_reached; [|done|done].
  apply elem_of_cons in Hin as [->|?]; auto.
Qed.

(** With non-negative counts, if in some row no other added key shares the
    column of [key], [estimate(key)] is exactly the total added for [key]. *)
Theorem estimate_exact_without_collision (w d seed : Z)
    (ops : list (string * Z)) (key : string) (s : Z) :
  0 < w → Forall (fun op => 0 <= op.2) ops →
  s ∈ randint seed <$> range d →
  Forall (fun op => op.1 ≠ key → column w op.1 s ≠ column w key s) ops →
  ∃ self,
    (self0 ← init w d seed; add_all self0 ops) = Ok self
    ∧ estimate self key = Ok (true_count key ops).
Proof.
  intros Hw Hnn Hs Halone.
  destruct (run_cells w d seed ops Hw) as (self & Hrun & Hw1 & Hss & Hc).
  exists self. split; [done|].
  unfold CountMinSketch.estimate. rewrite Hw1, Hc. cbn [mbind result_bind].
  apply min_reached.
  - apply list_elem_of_fmap. exists s. rewrite Hss.
    split; [|done]. symmetry. by apply column_total_alone.
  - apply Forall_fmap, Forall_forall. intros s' _. simpl.
    by apply column_total_ge.
Qed.

Lemma column_total_perm (w : Z) (s : Z) (col : nat)
    (ops ops' : list (string * Z)) :
  ops ≡ₚ ops' → column_total w s col ops = column_total w s col ops'.
Proof.
  induction 1 as [|[k c] ? ? _ IH|[k c] [k' c'] ?|? ? ? _ IH1 _ IH2];
    simpl; lia.
Qed.

(** The order of the [add] calls does not matter: two sequences that are
    permutations of each other give the same estimate for every key. *)
Theorem estimate_order_independent (w d seed : Z)
    (ops ops' : list (string * Z)) (key : string) :
  0 < w → ops ≡ₚ ops' →
  ∃ self self',
    (self0 ← init w d seed; add_all self0 ops) = Ok self
    ∧ (self0 ← init w d seed; add_all self0 ops') = Ok self'
    ∧ estimate self key = estimate self' key.
Proof.
  intros Hw Hperm.
  destruct (run_cells w d seed ops Hw) as (self & Hrun & Hw1 & Hs & Hc).
  destruct (run_cells w d seed ops' Hw) as (self' & Hrun' & Hw1' & Hs' & Hc').
  exists self, self'. split_and!; [done|done|].
  unfold CountMinSketch.estimate. rewrite Hw1, Hw1', Hc, Hc', Hs, Hs'.
  cbn [mbind result_bind]. f_equal. apply list_fmap_ext. intros _ s' _.
  by apply column_total_perm.
Qed.

End Exact.

(** The minimum of column totals on a sketch of width 4 and depth 2. *)
Lemma estimate_is_min_of_column_totals_witness :
  let hash := fun (key : string) (s : Z) => Z.of_nat (String.length key) + s in
  let rand := fun (seed : Z) (i : nat) => seed + Z.of_nat i in
  let ops := [("a", 3); ("bbbbb", -2); ("a", 1)]%string in
  ∃ self,
    (self0 ← init rand 4 2 42; add_all hash self0 ops) = Ok self
    ∧ estimate hash self "a"
      = min_ ((fun s => column_total hash 4 s (column hash 4 "a" s) ops)
                <$> (rand 42 <$> range 2)).
Proof.
  intros hash rand ops.
  apply (estimate_is_min_of_column_totals hash rand 4 2 42 ops "a"). lia.
Defined.

(** Exactness on a sketch where the second row separates the two keys. *)
Lemma estimate_exact_without_collision_witness :
  let hash := fun (key : string) (s : Z) => Z.of_nat (String.length key) * s in
  let rand := fun (seed : Z) (i : nat) => seed + Z.of_nat i in
  let ops := [("a", 3); ("bb", 2); ("a", 1)]%string in
  ∃ self,
    (self0 ← init rand 4 2 4; add_all hash self0 ops) = Ok self
    ∧ estimate hash self "a" = Ok (true_count "a" ops).
Proof.
  intros hash rand ops.
  apply (estimate_exact_without_collision hash rand 4 2 4 ops "a" 5); [lia|..].
  - repeat constructor; simpl; lia.
  - apply (bool_decide_unpack _). by vm_compute.
  - repeat constructor; simpl; intros; by vm_compute.
Defined.

(** Order independence on two orders of three calls. *)
Lemma estimate_order_independent_witness :
  let hash := fun (key : string) (s : Z) => Z.of_nat (String.length key) + s in
  let rand := fun (seed : Z) (i : nat) => seed + Z.of_nat i in
  ∃ self self',
    (self0 ← init rand 4 2 42;
       add_all hash self0 [("a", 3); ("bb", 2); ("a", 1)]%string) = Ok self
    ∧ (self0 ← init rand 4 2 42;
         add_all hash self0 [("a", 1); ("a", 3); ("bb", 2)]%string) = Ok self'
    ∧ estimate hash self "a" = estimate hash self' "a".
Proof.
  intros hash rand.
  apply (estimate_order_independent hash rand 4 2 42); [lia|].
  solve_Permutation.
Defined.

End CountMinSketchFacts.

(** ** Windowed bit counter *)

Module DGIMFacts.
Import DGIM.

(** Where the scan finds three equal sizes at the front, the two newest
    buckets are the ones merged: the result carries the middle bucket's
    timestamp and the oldest bucket is left as it was. *)
Lemma merge_from_triple (b0 b1 b2 : bucket) :
  size b0 = size b1 → size b1 = size b2 → 0 < size b2 →
  merge [b0; b1; b2] = [{| time := time b1; size := 2 * size b2 |}; b2].
Proof.
  intros H01 H12 Hpos. simpl.
  rewrite H01, H12, Z.eqb_refl. simpl. do 2 f_equal. lia.
Qed.

(** C2. Seven set bits at timestamps 1..7 in a window of 100: the merge step
    has left three buckets of size 1 (and the sizes are out of order). *)
Theorem add_bit_leaves_three_buckets_of_size_one :
  let events := (fun ts => (true, ts)) <$> [1; 2; 3; 4; 5; 6; 7] in
  let self := run (init 100) events in
  size <$> buckets self = [1; 2; 1; 2; 1] ∧ count_size 1 self = 3%nat.
Proof. by vm_compute. Qed.

Lemma query_loop_counted (cutoff total : Z) (bs : list bucket) :
  query_loop cutoff total false bs
  = total + total_size (leading_in_window cutoff bs).
Proof.
  revert total. induction bs as [|b bs IH]; intros total; simpl; [lia|].
  destruct (time b <? cutoff); simpl; [lia|]. rewrite IH. lia.
Qed.

Lemma query_loop_fresh (cutoff : Z) (bs : list bucket) :
  query_loop cutoff 0 true bs
  = match bs with
    | [] => 0
    | b :: _ =>
        if time b <? cutoff then size b `div` 2
        else total_size (leading_in_window cutoff bs)
    end.
Proof.
  destruct bs as [|b bs]; simpl; [done|].
  destruct (time b <? cutoff); [done|]. rewrite query_loop_counted.
  simpl. lia.
Qed.

Lemma merge_from_times (P : Z → Prop) (rest : list bucket) :
  ∀ b0, P (time b0) → Forall (fun b => P (time b)) rest →
    Forall (fun b => P (time b)) (merge_from b0 rest).
Proof.
  induction rest as [|b1 rest IH]; intros b0 H0 Hrest; simpl.
  - by constructor.
  - inversion Hrest as [|? ? H1 Hrest']; subst.
    destruct rest as [|b2 rest'].
    + by repeat constructor.
    + destruct ((size b0 =? size b1) && (size b1 =? size b2)).
      * by apply IH.
      * constructor; [done|]. by apply IH.
Qed.

Lemma add_bit_times (P : Z → Prop) (now : Z) (self : t) (bit : bool)
    (ts : option Z) :
  P (default now ts) → Forall (fun b => P (time b)) (buckets self) →
  Forall (fun b => P (time b)) (buckets (add_bit now self bit ts)).
Proof.
  intros Hts Hbs. unfold add_bit. simpl.
  apply Forall_forall. intros b [_ Hb]%list_elem_of_filter. revert b Hb.
  apply Forall_forall. destruct bit; [|done]. simpl.
  by apply merge_from_times.
Qed.

Lemma add_bit_window (now : Z) (self : t) (bit : bool) (ts : option Z) :
  window (add_bit now self bit ts) = window self.
Proof. done. Qed.

Lemma run_times (P : Z → Prop) (events : list (bool * Z)) :
  ∀ self, Forall (fun ev => P ev.2) events →
    Forall (fun b => P (time b)) (buckets self) →
    window (run self events) = window self
    ∧ Forall (fun b => P (time b)) (buckets (run self events)).
Proof.
  induction events as [|[bit ts] events IH]; intros self Hev Hbs; [done|].
  inversion Hev; subst. unfold run. simpl.
  destruct (IH (add_bit 0 self bit (Some ts))) as [Hw Hb]; [done|..].
  - by apply add_bit_times.
  - split; [by rewrite <- (add_bit_window 0 self bit (Some ts))|done].
Qed.

(** C3 on the code.  Three set bits at timestamps 1, 2, 3 in a window of 10
    are merged newest-first and leave a newest bucket of size 2; queried at
    timestamp 14, past the last event's timestamp plus the window, no bucket
    is inside the window and the count is 1, not 0: [query] adds half the
    size of the newest bucket. *)
Lemma query_after_window_not_zero :
  let events := [(true, 1); (true, 2); (true, 3)] in
  let self := run (init 10) events in
  Forall (fun ev => ev.2 + window self < 14) events
  ∧ filter (fun b => 14 - window self <= time b) (buckets self) = []
  ∧ query 0 self (Some 14) = 1
  ∧ query 0 self (Some 14) ≠ 0.
Proof. vm_compute. split_and!; try done. repeat constructor. Qed.

(** Sizes. *)

Lemma merge_from_sizes (P : Z → Prop) (rest : list bucket) :
  (∀ z, P z → P (z + z)) →
  ∀ b0, P (size b0) → Forall (fun b => P (size b)) rest →
    Forall (fun b => P (size b)) (merge_from b0 rest).
Proof.
  intros Hdouble. induction rest as [|b1 rest IH]; intros b0 H0 Hrest; simpl.
  - by constructor.
  - inversion Hrest as [|? ? H1 Hrest']; subst.
    destruct rest as [|b2 rest'].
    + by repeat constructor.
    + destruct ((size b0 =? size b1) && (size b1 =? size b2)) eqn:E.
      * apply andb_true_iff in E as [Heq%Z.eqb_eq _].
        apply IH; [|done]. cbn [size]. rewrite Heq. by apply Hdouble.
      * constructor; [done|]. by apply IH.
Qed.

Lemma add_bit_sizes (P : Z → Prop) (now : Z) (self : t) (bit : bool)
    (ts : option Z) :
  (∀ z, P z → P (z + z)) → P 1 →
  Forall (fun b => P (size b)) (buckets self) →
  Forall (fun b => P (size b)) (buckets (add_bit now self bit ts)).
Proof.
  intros Hdouble H1 Hbs. unfold add_bit. simpl.
  apply Forall_forall. intros b [_ Hb]%list_elem_of_filter. revert b Hb.
  apply Forall_forall. destruct bit; [|done]. simpl.
  by apply merge_from_sizes.
Qed.

Lemma run_sizes (P : Z → Prop) (events : list (bool * Z)) :
  (∀ z, P z → P (z + z)) → P 1 →
  ∀ self, Forall (fun b => P (size b)) (buckets self) →
    Forall (fun b => P (size b)) (buckets (run self events)).
Proof.
  intros Hdouble H1. induction events as [|[bit ts] events IH]; intros self Hbs;
    [done|].
  unfold run. simpl. apply IH. by apply add_bit_sizes.
Qed.

(** Whatever bits and timestamps are fed, every stored bucket has a size
    that is a power of two. *)
Theorem bucket_sizes_are_powers_of_two (w : Z) (events : list (bool * Z)) :
  Forall (fun b => ∃ k : nat, size b = 2 ^ Z.of_nat k)
         (buckets (run (init w) events)).
Proof.
  apply (run_sizes (fun z => ∃ k : nat, z = 2 ^ Z.of_nat k)).
  - intros z [k ->]. exists (S k). rewrite Nat2Z.inj_succ, Z.pow_succ_r by lia.
    lia.
  - by exists 0%nat.
  - by constructor.
Qed.

Lemma total_size_merge_from (rest : list bucket) :
  ∀ b0, total_size (merge_from b0 rest) = size b0 + total_size rest.
Proof.
  induction rest as [|b1 rest IH]; intros b0; simpl; [done|].
  destruct rest as [|b2 rest'].
  - done.
  - destruct ((size b0 =? size b1) && (size b1 =? size b2)).
    + rewrite IH. simpl. lia.
    + change (total_size (b0 :: merge_from b1 (b2 :: rest')))
        with (size b0 + total_size (merge_from b1 (b2 :: rest'))).
      rewrite IH. simpl. lia.
Qed.

Lemma total_size_filter_le (f : bucket → Prop) `{∀ b, Decision (f b)}
    (bs : list bucket) :
  Forall (fun b => 0 <= size b) bs →
  0 <= total_size (filter f bs) <= total_size bs.
Proof.
  induction 1 as [|b bs Hb _ IH]; [done|].
  rewrite filter_cons. destruct (decide (f b)); simpl in *; lia.
Qed.

Lemma total_size_filter_all (f : bucket → Prop) `{∀ b, Decision (f b)}
    (bs : list bucket) :
  Forall f bs → filter f bs = bs.
Proof.
  induction 1 as [|b bs Hb _ IH]; [done|].
  by rewrite filter_cons_True, IH.
Qed.

Lemma leading_all (cutoff : Z) (bs : list bucket) :
  Forall (fun b => cutoff <= time b) bs → leading_in_window cutoff bs = bs.
Proof.
  induction 1 as [|b bs Hb _ IH]; simpl; [done|].
  destruct (Z.ltb_spec (time b) cutoff); [lia|]. by rewrite IH.
Qed.

Lemma add_bit_in_window (now : Z) (self : t) (bit : bool) (ts : option Z) :
  Forall (fun b => default now ts - window self <= time b)
         (buckets (add_bit now self bit ts)).
Proof.
  unfold add_bit. simpl. apply Forall_forall.
  by intros b [? _]%list_elem_of_filter.
Qed.

(** [add_bit] leaves only buckets inside the window of its timestamp, so a
    [query] at the same timestamp right after it returns the total of the
    stored sizes, nothing halved. *)
Theorem query_after_add_bit_is_total (now : Z) (self : t) (bit : bool)
    (ts : option Z) :
  let self' := add_bit now self bit ts in
  Forall (fun b => default now ts - window self <= time b) (buckets self')
  ∧ query now self' ts = total_size (buckets self').
Proof.
  intros self'. pose proof (add_bit_in_window now self bit ts) as Hin.
  split; [done|]. unfold query. rewrite query_loop_fresh.
  fold self' in Hin. change (window self') with (window self).
  destruct (buckets self') as [|b bs] eqn:E; [done|].
  inversion Hin; subst.
  destruct (Z.ltb_spec (time b) (default now ts - window self)); [lia|].
  by rewrite leading_all.
Qed.

Lemma ones_cons (bit : bool) (ts : Z) (events : list (bool * Z)) :
  ones ((bit, ts) :: events) = (if bit then 1 else 0) + ones events.
Proof.
  unfold ones. rewrite filter_cons. simpl.
  destruct bit; [rewrite decide_True by done|rewrite decide_False by done];
    simpl; lia.
Qed.

Lemma total_size_leading_le (cutoff : Z) (bs : list bucket) :
  Forall (fun b => 0 <= size b) bs →
  0 <= total_size (leading_in_window cutoff bs) <= total_size bs.
Proof.
  induction 1 as [|b bs Hb Hbs IH]; simpl; [done|].
  destruct (time b <? cutoff); simpl.
  - pose proof (total_size_filter_le (fun _ => True) bs Hbs) as Hle.
    rewrite total_size_filter_all in Hle by by apply Forall_true.
    unfold total_size in *. lia.
  - unfold total_size in *. lia.
Qed.

Lemma add_bit_total_le (now : Z) (self : t) (bit : bool) (ts : option Z) :
  Forall (fun b => 1 <= size b) (buckets self) →
  total_size (buckets (add_bit now self bit ts))
  <= total_size (buckets self) + (if bit then 1 else 0).
Proof.
  intros Hpos. unfold add_bit. cbn [buckets].
  set (bs := if bit then _ else _).
  assert (Forall (fun b => 0 <= size b) bs ∧
          total_size bs = total_size (buckets self) + (if bit then 1 else 0))
    as [Hnn Htot].
  { unfold bs. destruct bit.
    - split.
      + eapply Forall_impl;
          [apply (merge_from_sizes (fun z => 1 <= z)); [lia|done|done]|].
        simpl. lia.
      + cbn [merge]. rewrite total_size_merge_from. simpl. lia.
    - split; [|lia]. eapply Forall_impl; [exact Hpos|]. simpl. lia. }
  pose proof (total_size_filter_le
                (fun b => default now ts - window self <= time b) bs Hnn).
  lia.
Qed.

Lemma run_total_le (events : list (bool * Z)) :
  ∀ self, Forall (fun b => 1 <= size b) (buckets self) →
    total_size (buckets (run self events))
    <= total_size (buckets self) + ones events.
Proof.
  induction events as [|[bit ts] events IH]; intros self Hpos.
  - unfold ones. simpl. lia.
  - rewrite ones_cons. unfold run. simpl.
    pose proof (add_bit_total_le 0 self bit (Some ts) Hpos).
    specialize (IH (add_bit 0 self bit (Some ts))).
    unfold run in IH. etrans; [apply IH|lia].
    apply (add_bit_sizes (fun z => 1 <= z)); [lia|lia|done].
Qed.

(** [query] never returns more than the number of set bits that were fed,
    and never a negative count. *)
Theorem query_at_most_ones (now w : Z) (events : list (bool * Z))
    (ts : option Z) :
  0 <= query now (run (init w) events) ts <= ones events.
Proof.
  assert (Htot : total_size (buckets (run (init w) events))
                 <= total_size (buckets (init w)) + ones events)
    by (apply run_total_le; by constructor).
  assert (Hpos : Forall (fun b => 1 <= size b) (buckets (run (init w) events))).
  { apply (run_sizes (fun z => 1 <= z)); [intros; lia|lia|by constructor]. }
  simpl in Htot. unfold query. rewrite query_loop_fresh.
  destruct (buckets (run (init w) events)) as [|b bs] eqn:E.
  - unfold ones. lia.
  - assert (Hnn : Forall (fun b => 0 <= size b) (b :: bs)).
    { eapply Forall_impl; [exact Hpos|]. simpl. lia. }
    destruct (time b <? _).
    + inversion Hpos as [|? ? Hb Hbs]; subst.
      pose proof (total_size_filter_le (fun _ => True) bs
                    ltac:(by inversion Hnn)) as Hle.
      pose proof (Z.div_pos (size b) 2 ltac:(lia) ltac:(lia)).
      pose proof (Z.div_le_upper_bound (size b) 2 (size b) ltac:(lia)
                    ltac:(lia)).
      simpl in Htot. rewrite total_size_filter_all in Hle
        by by apply Forall_true.
      unfold total_size in *. lia.
    + pose proof (total_size_leading_le
                    (default now ts - window (run (init w) events))
                    (b :: bs) Hnn).
      lia.
Qed.

Lemma run_total_exact (lo : Z) (events : list (bool * Z)) :
  ∀ self,
    Forall (fun b => lo <= time b) (buckets self) →
    Forall (fun ev => lo <= ev.2 ∧ ev.2 - window self <= lo) events →
    window (run self events) = window self
    ∧ Forall (fun b => lo <= time b) (buckets (run self events))
    ∧ total_size (buckets (run self events))
      = total_size (buckets self) + ones events.
Proof.
  induction events as [|[bit ts] events IH]; intros self Hbs Hev.
  - unfold ones. simpl. split_and!; [done|done|lia].
  - inversion Hev as [|? ? [Hlo Hhi] Hev']; subst. simpl in *.
    rewrite ones_cons. unfold run. simpl.
    assert (Hin : Forall (fun b => lo <= time b)
                    (buckets (add_bit 0 self bit (Some ts)))).
    { by apply (add_bit_times (fun t => lo <= t)). }
    destruct (IH (add_bit 0 self bit (Some ts)) Hin Hev') as (Hw & Hb & Ht).
    unfold run in *. split_and!; [done|done|]. rewrite Ht.
    unfold add_bit. cbn [buckets]. rewrite total_size_filter_all.
    + destruct bit; [|lia]. cbn [merge]. rewrite total_size_merge_from.
      simpl. lia.
    + eapply Forall_impl.
      * destruct bit; [|exact Hbs]. simpl.
        apply (merge_from_times (fun t => lo <= t)); done.
      * simpl. intros b Hb'. lia.
Qed.

(** When all events lie in a span no longer than the window and the query
    timestamp is not past that span, nothing is evicted or halved and
    [query] returns exactly the number of set bits. *)
Theorem query_exact_within_window (now w lo : Z) (events : list (bool * Z))
    (ts : Z) :
  Forall (fun ev => lo <= ev.2 <= lo + w) events → ts <= lo + w →
  query now (run (init w) events) (Some ts) = ones events.
Proof.
  intros Hev Hts.
  destruct (run_total_exact lo events (init w)) as (Hw & Hb & Ht).
  { by constructor. }
  { eapply Forall_impl; [exact Hev|]. simpl. intros ev ?. lia. }
  simpl in Ht. unfold query. rewrite query_loop_fresh, Hw. simpl.
  destruct (buckets (run (init w) events)) as [|b bs] eqn:E.
  - simpl in Ht. lia.
  - inversion Hb; subst.
    destruct (Z.ltb_spec (time b) (ts - w)); [lia|].
    rewrite leading_all; [lia|].
    eapply Forall_impl; [exact Hb|]. simpl. intros. lia.
Qed.

(** Five events inside a window of 10, three of them set. *)
Lemma query_exact_within_window_witness :
  query 0 (run (init 10)
             [(true, 1); (false, 2); (true, 4); (true, 4); (false, 9)])
        (Some 11)
  = ones [(true, 1); (false, 2); (true, 4); (true, 4); (false, 9)].
Proof.
  apply (query_exact_within_window 0 10 1); [|lia].
  repeat constructor; simpl; lia.
Defined.

Lemma merge_from_descending (rest : list bucket) :
  ∀ b0, Forall (fun b => time b <= time b0) rest → descending rest →
    descending (merge_from b0 rest).
Proof.
  induction rest as [|b1 rest IH]; intros b0 Hle Hdesc; simpl; [done|].
  inversion Hle as [|? ? H1 Hle']; subst. destruct Hdesc as [Hb1 Hdesc].
  destruct rest as [|b2 rest'].
  - by repeat constructor.
  - destruct ((size b0 =? size b1) && (size b1 =? size b2)).
    + by apply IH.
    + split; [|by apply IH].
      apply (merge_from_times (fun t => t <= time b0)); done.
Qed.

Lemma descending_filter (f : bucket → Prop) `{∀ b, Decision (f b)}
    (bs : list bucket) :
  descending bs → descending (filter f bs).
Proof.
  induction bs as [|b bs IH]; [done|]. intros [Hb Hdesc].
  rewrite filter_cons. destruct (decide (f b)); [|by apply IH].
  split; [|by apply IH]. apply Forall_forall.
  intros b' [_ Hb']%list_elem_of_filter. revert b' Hb'. by apply Forall_forall.
Qed.

Lemma run_descending (events : list (bool * Z)) :
  ∀ self, ascending events →
    descending (buckets self) →
    Forall (fun ev => Forall (fun b => time b <= ev.2) (buckets self)) events →
    descending (buckets (run self events)).
Proof.
  induction events as [|[bit ts] events IH]; intros self Hasc Hdesc Hle;
    [done|].
  destruct Hasc as [Hts Hasc]. inversion Hle as [|? ? Hle0 Hle']; subst.
  unfold run. simpl in *. apply IH; [done|..].
  - unfold add_bit. cbn [buckets]. apply descending_filter.
    destruct bit; [|done]. by apply merge_from_descending.
  - apply Forall_forall. intros ev Hev.
    apply (add_bit_times (fun t => t <= ev.2)).
    + simpl. by eapply Forall_forall in Hts.
    + by eapply Forall_forall in Hle'.
Qed.

Lemma filter_none (f : bucket → Prop) `{∀ b, Decision (f b)}
    (bs : list bucket) :
  Forall (fun b => ¬ f b) bs → filter f bs = [].
Proof.
  induction 1 as [|b bs Hb _ IH]; [done|]. by rewrite filter_cons_False.
Qed.

Lemma leading_is_filter (cutoff : Z) (bs : list bucket) :
  descending bs →
  leading_in_window cutoff bs = filter (fun b => cutoff <= time b) bs.
Proof.
  induction bs as [|b bs IH]; [done|]. intros [Hb Hdesc]. simpl.
  rewrite filter_cons. destruct (Z.ltb_spec (time b) cutoff).
  - rewrite decide_False by lia. symmetry. apply filter_none.
    eapply Forall_impl; [exact Hb|]. simpl. lia.
  - rewrite decide_True by lia. by rewrite IH.
Qed.

(** When the event timestamps do not decrease, the bucket timestamps do not
    increase from the newest bucket on, and [query] returns the total size
    of all buckets inside the window, unless the newest bucket is already
    outside it, where it returns half that bucket's size. *)
Theorem query_on_ordered_stream (now w : Z) (events : list (bool * Z))
    (ts : option Z) :
  ascending events →
  let self := run (init w) events in
  let cutoff := default now ts - w in
  descending (buckets self)
  ∧ query now self ts
    = match buckets self with
      | [] => 0
      | b :: _ =>
          if time b <? cutoff then size b `div` 2
          else total_size (filter (fun b => cutoff <= time b) (buckets self))
      end.
Proof.
  intros Hasc self cutoff.
  assert (Hdesc : descending (buckets self)).
  { apply run_descending; [done|done|].
    apply Forall_forall. intros ev _. by constructor. }
  split; [done|]. unfold query. rewrite query_loop_fresh.
  destruct (run_times (fun _ => True) events (init w)) as [Hw _];
    [by apply Forall_true|by constructor|].
  fold self in Hw. rewrite Hw. simpl. fold cutoff.
  destruct (buckets self) as [|b bs] eqn:E; [done|].
  by rewrite leading_is_filter.
Qed.

(** An ordered stream of four events in a window of 2. *)
Lemma query_on_ordered_stream_witness :
  let self := run (init 2) [(true, 1); (true, 2); (true, 3); (true, 5)] in
  descending (buckets self)
  ∧ query 0 self (Some 5)
    = match buckets self with
      | [] => 0
      | b :: _ =>
          if time b <? 5 - 2 then size b `div` 2
          else total_size (filter (fun b => 5 - 2 <= time b) (buckets self))
      end.
Proof.
  apply (query_on_ordered_stream 0 2
           [(true, 1); (true, 2); (true, 3); (true, 5)] (Some 5)).
  simpl. repeat split; repeat constructor; simpl; lia.
Defined.

End DGIMFacts.

(** ** Running moments *)

Module RunningMomentsFacts.
Import RunningMoments.
Local Open Scope float_scope.

Section Constant.

Variable float_pow : float → float → float.
(** Python's [0.0 ** 1.5] is [0.0]. *)
Hypothesis float_pow_zero : float_pow 0 1.5 = 0.

Lemma update_all_constant :
  update_all init [5; 5; 5; 5]
  = Ok {| n := 4; mean := 5; M2 := 0; M3 := 0; M4 := 0 |}.
Proof. by vm_compute. Qed.

(** C4. After [update(5)] four times the three central moments are [0.0]:
    [get_variance()] returns [0.0], while [get_skewness()] and
    [get_kurtosis()] divide by [M2 ** 1.5] and [M2 * M2], both [0.0], and
    raise [ZeroDivisionError] instead of returning 0. *)
Theorem constant_sample_skewness_kurtosis_raise :
  ∃ self,
    update_all init [5; 5; 5; 5] = Ok self
    ∧ get_variance self = Ok 0
    ∧ get_skewness float_pow self = Raise ZeroDivisionError
    ∧ get_kurtosis self = Raise ZeroDivisionError.
Proof.
  eexists. split; [exact update_all_constant|]. split_and!.
  - by vm_compute.
  - unfold get_skewness. cbn [n M2 M3 Z.ltb Z.compare Pos.compare Pos.compare_cont].
    by rewrite float_pow_zero.
  - by vm_compute.
Qed.

End Constant.

(** C4 with [x ** 1.5] computed as [x * sqrt x]. *)
Lemma constant_sample_skewness_kurtosis_raise_witness :
  let pow := fun x y : float => x * PrimFloat.sqrt x in
  ∃ self,
    update_all init [5; 5; 5; 5] = Ok self
    ∧ get_variance self = Ok 0
    ∧ get_skewness pow self = Raise ZeroDivisionError
    ∧ get_kurtosis self = Raise ZeroDivisionError.
Proof.
  intros pow. apply (constant_sample_skewness_kurtosis_raise pow).
  by vm_compute.
Defined.

End RunningMomentsFacts.

(** ** The heap contract and the array heap that meets it *)

Module HeapqFacts.
Import Heapq.

Lemma string_ltb_leb (s1 s2 : string) :
  String.ltb s1 s2 = negb (String.leb s2 s1).
Proof.
  unfold String.ltb, String.leb. rewrite (String.compare_antisym s2 s1).
  by destruct (String.compare s1 s2).
Qed.

Lemma entry_le_spec (e1 e2 : entry) :
  entry_le e1 e2 ↔ e1.1 < e2.1 ∨ (e1.1 = e2.1 ∧ String.le e1.2 e2.2).
Proof.
  unfold entry_le, entry_ltb, String.le. rewrite string_ltb_leb.
  destruct (Z.ltb_spec e2.1 e1.1), (Z.eqb_spec e2.1 e1.1),
    (String.leb e1.2 e2.2); simpl; split; intros; try done; try lia.
Qed.

Lemma entry_le_fst (e1 e2 : entry) : entry_le e1 e2 → e1.1 <= e2.1.
Proof. rewrite entry_le_spec. lia. Qed.

Lemma entry_le_trans (e1 e2 e3 : entry) :
  entry_le e1 e2 → entry_le e2 e3 → entry_le e1 e3.
Proof.
  rewrite !entry_le_spec. intros [?|[? H12]] [?|[? H23]]; try (left; lia).
  right. split; [lia|]. by trans e2.2.
Qed.

Lemma entry_le_total (e1 e2 : entry) : entry_le e1 e2 ∨ entry_le e2 e1.
Proof.
  rewrite !entry_le_spec.
  destruct (Z.lt_trichotomy e1.1 e2.1) as [?|[?|?]]; [by auto| |by auto].
  destruct (total String.le e1.2 e2.2); [left|right]; right; by split.
Qed.

Lemma entry_ltb_le (e1 e2 : entry) : entry_ltb e1 e2 = true → entry_le e1 e2.
Proof.
  intros Hlt. destruct (entry_le_total e1 e2) as [|Hle]; [done|].
  unfold entry_le in Hle. congruence.
Qed.

(** The array heap of the library. *)

Lemma div2_bounds (k : nat) : (2 * (k / 2) <= k < 2 * (k / 2) + 2)%nat.
Proof.
  pose proof (Nat.div_mod_eq k 2). pose proof (Nat.mod_upper_bound k 2). lia.
Qed.

Lemma parent_lt (i : nat) : (1 <= i)%nat → (parent i < i)%nat.
Proof. intros Hi. unfold parent. pose proof (div2_bounds (i - 1)). lia. Qed.

Lemma parent_children (i p : nat) :
  (1 <= i)%nat → parent i = p ↔ (i = 2 * p + 1 ∨ i = 2 * p + 2)%nat.
Proof.
  intros Hi. unfold parent. pose proof (div2_bounds (i - 1)). split.
  - intros <-. lia.
  - intros [->| ->].
    + replace (2 * p + 1 - 1)%nat with (p * 2)%nat by lia.
      by rewrite Nat.div_mul.
    + replace (2 * p + 2 - 1)%nat with (1 + p * 2)%nat by lia.
      rewrite Nat.div_add by done. done.
Qed.

Lemma entry_le_refl (e : entry) : entry_le e e.
Proof. by destruct (entry_le_total e e). Qed.

Lemma lookup_insert_dec {A} (l : list A) (i j : nat) (x : A) :
  (i < length l)%nat →
  <[i := x]> l !! j = if decide (i = j) then Some x else l !! j.
Proof.
  intros Hi. rewrite list_lookup_insert.
  destruct (decide (i = j)) as [->|?].
  - by rewrite decide_True.
  - rewrite decide_False; [done|]. by intros [? _].
Qed.

Lemma insert_cons_perm {A} (l : list A) (j : nat) (a b : A) :
  l !! j = Some b → b :: <[j := a]> l ≡ₚ a :: l.
Proof.
  revert j. induction l as [|y l IH]; intros [|j] Hj; simpl in *; try done.
  - injection Hj as ->. apply Permutation_swap.
  - rewrite Permutation_swap, (IH j Hj). apply Permutation_swap.
Qed.

Lemma insert_swap_perm {A} (l : list A) (i j : nat) (a b : A) :
  l !! i = Some a → l !! j = Some b → i ≠ j →
  <[i := b]> (<[j := a]> l) ≡ₚ l.
Proof.
  revert i j. induction l as [|y l IH]; intros [|i] [|j] Hi Hj Hne;
    simpl in *; try done.
  - injection Hi as ->. by apply insert_cons_perm.
  - injection Hj as ->. by apply insert_cons_perm.
  - f_equiv. apply IH; [done|done|lia].
Qed.

(** Moving the hole from [i] to [j]. *)
Lemma hole_move_perm {A} (h : list A) (i j : nat) (c x : A) :
  h !! j = Some c → i ≠ j → (i < length h)%nat →
  <[j := x]> (<[i := c]> h) ≡ₚ <[i := x]> h.
Proof.
  intros Hj Hne Hi.
  etrans; [|apply (insert_swap_perm (<[i := x]> h) i j x c)].
  - rewrite (list_insert_insert_ne _ i j) by done.
    by rewrite list_insert_insert_eq.
  - by apply list_lookup_insert_eq.
  - by rewrite list_lookup_insert_ne.
  - done.
Qed.

Lemma siftdown_loop_perm (fuel : nat) (s : nat) :
  ∀ (h : list entry) (pos : nat) (x : entry),
    (pos < length h)%nat →
    siftdown_loop fuel h s pos x ≡ₚ <[pos := x]> h.
Proof.
  induction fuel as [|fuel IH]; intros h pos x Hpos; simpl; [done|].
  destruct (Nat.ltb_spec s pos) as [Hs|_]; [|done].
  destruct (h !! parent pos) as [p|] eqn:Hp; [|done].
  destruct (entry_ltb x p); [|done].
  pose proof (parent_lt pos) as Hlt.
  rewrite IH by (rewrite length_insert; lia).
  apply hole_move_perm; [done|lia|done].
Qed.

Lemma smaller_child_cases (h : list entry) (endpos pos : nat) :
  smaller_child h endpos pos = (2 * pos + 1)%nat
  ∨ smaller_child h endpos pos = (2 * pos + 2)%nat.
Proof.
  unfold smaller_child.
  destruct (h !! (2 * pos + 1)%nat), (h !! (2 * pos + 1 + 1)%nat); auto.
  destruct (_ && _); [right; lia|auto].
Qed.

Lemma siftup_loop_perm (fuel : nat) (endpos : nat) :
  ∀ (h h' : list entry) (pos leaf : nat),
    (pos < length h)%nat →
    siftup_loop fuel h endpos pos = (h', leaf) →
    length h' = length h ∧ (leaf < length h)%nat
    ∧ ∀ x, <[leaf := x]> h' ≡ₚ <[pos := x]> h.
Proof.
  induction fuel as [|fuel IH]; intros h h' pos leaf Hpos;
    cbn [siftup_loop].
  { by intros [= <- <-]. }
  destruct (Nat.ltb_spec (2 * pos + 1) endpos) as [_|_];
    [|by intros [= <- <-]].
  pose proof (smaller_child_cases h endpos pos) as Hcp.
  destruct (h !! smaller_child h endpos pos) as [c|] eqn:Hc;
    [|by intros [= <- <-]].
  intros Hrun. apply IH in Hrun as (Hlen & Hleaf & Hperm).
  - rewrite length_insert in Hlen, Hleaf. split_and!; [done|done|].
    intros x. rewrite Hperm. apply hole_move_perm; [done|lia|done].
  - rewrite length_insert. by eapply lookup_lt_Some.
Qed.

(** Two runs of the algorithm, as the library computes them. *)
Example heappush_run :
  (foldl array_heappush []
     ((fun n => (n, ""%string)) <$> [5; 3; 8; 1; 9; 2; 7; 4; 6; 0])).*1
  = [0; 1; 2; 4; 3; 8; 7; 5; 6; 9].
Proof. reflexivity. Qed.

Example heapreplace_run :
  array_heapreplace
    ((fun n => (n, ""%string)) <$> [0; 1; 2; 4; 3; 8; 7; 5; 6; 9])
    (3, ""%string)
  = Ok ((fun n => (n, ""%string)) <$> [1; 3; 2; 4; 3; 8; 7; 5; 6; 9]).
Proof. reflexivity. Qed.

(** Lookups through [insert] are resolved by comparing the positions. *)
Ltac resolve_lookups :=
  repeat match goal with
  | H : context [<[_ := _]> _ !! _] |- _ =>
      rewrite lookup_insert_dec in H by (rewrite ?length_insert; lia)
  | |- context [<[_ := _]> _ !! _] =>
      rewrite lookup_insert_dec by (rewrite ?length_insert; lia)
  end;
  repeat case_decide; simplify_eq; try lia.

Lemma up_inv_done (h : list entry) (pos : nat) (x : entry) :
  up_inv h pos x →
  (pos = 0%nat ∨ ∃ p, h !! parent pos = Some p ∧ entry_ltb x p = false) →
  array_heap (<[pos := x]> h).
Proof.
  intros (Hpos & HA & _) Hend i Hi.
  destruct (decide (i = pos)) as [->|Hne]; [|by apply HA].
  destruct Hend as [->|(p & Hp & Hxp)]; [lia|].
  pose proof (parent_lt pos Hi).
  intros y q Hy Hq. resolve_lookups. done.
Qed.

Lemma up_inv_step (h : list entry) (pos : nat) (x p : entry) :
  up_inv h pos x → (1 <= pos)%nat →
  h !! parent pos = Some p → entry_ltb x p = true →
  up_inv (<[pos := p]> h) (parent pos) x.
Proof.
  intros (Hpos & HA & HB) Hpos1 Hp Hxp.
  pose proof (parent_lt pos Hpos1) as Hlt.
  apply entry_ltb_le in Hxp.
  split_and!.
  - rewrite length_insert. lia.
  - intros i Hi Hne y q Hy Hq.
    destruct (decide (i = pos)) as [->|Hip].
    + resolve_lookups. done.
    + assert (h !! i = Some y) as Hy' by (resolve_lookups; done).
      destruct (decide (parent i = parent pos)) as [Hpar|Hpar].
      * assert (q = x) as -> by (resolve_lookups; done).
        eapply entry_le_trans; [exact Hxp|].
        apply (HA i Hi Hip y p); resolve_lookups; [done|congruence].
      * destruct (decide (parent i = pos)) as [Hpp|Hpp].
        -- assert (q = p) as -> by (resolve_lookups; done).
           by apply (HB i y p).
        -- apply (HA i Hi Hip y q); resolve_lookups; done.
  - intros i c q Hpp1 Hi Hpar Hc Hq.
    pose proof (parent_lt (parent pos) Hpp1) as Hlt2.
    assert (h !! parent (parent pos) = Some q) as Hq' by (resolve_lookups; done).
    assert (entry_le q p) as Hqp.
    { apply (HA (parent pos) Hpp1 ltac:(lia) p q); resolve_lookups; done. }
    destruct (decide (i = pos)) as [->|Hip].
    + resolve_lookups. done.
    + assert (h !! i = Some c) as Hc' by (resolve_lookups; done).
      eapply entry_le_trans; [exact Hqp|].
      apply (HA i Hi Hip c p); resolve_lookups; [done|congruence].
Qed.

Lemma siftdown_loop_heap (fuel : nat) :
  ∀ (h : list entry) (pos : nat) (x : entry),
    (pos <= fuel)%nat → up_inv h pos x →
    array_heap (siftdown_loop fuel h 0 pos x).
Proof.
  induction fuel as [|fuel IH]; intros h pos x Hfuel Hinv;
    cbn [siftdown_loop].
  { apply up_inv_done; [done|left; lia]. }
  destruct (Nat.ltb_spec 0 pos) as [Hpos|Hpos];
    [|apply up_inv_done; [done|left; lia]].
  pose proof (parent_lt pos Hpos) as Hlt.
  destruct (h !! parent pos) as [p|] eqn:Hp.
  - destruct (entry_ltb x p) eqn:Hxp.
    + apply IH; [lia|]. by apply up_inv_step.
    + apply up_inv_done; [done|]. right. by exists p.
  - apply lookup_ge_None in Hp. destruct Hinv as (? & _). lia.
Qed.

Lemma smaller_child_le (h : list entry) (pos s : nat) (c sv : entry) :
  h !! smaller_child h (length h) pos = Some c →
  (1 <= s)%nat → parent s = pos → s ≠ smaller_child h (length h) pos →
  h !! s = Some sv → entry_le c sv.
Proof.
  intros Hc Hs Hpar Hne Hsv. apply parent_children in Hpar; [|done].
  unfold smaller_child in *.
  remember (2 * pos + 1)%nat as lp eqn:Hlp.
  remember (lp + 1)%nat as rp eqn:Hrp.
  destruct (h !! lp) as [l|] eqn:Hl; [|congruence].
  destruct (h !! rp) as [r|] eqn:Hr.
  - destruct (Nat.ltb_spec rp (length h)) as [_|Hge].
    2:{ apply lookup_lt_Some in Hr. lia. }
    destruct (entry_ltb l r) eqn:Hlr; cbn [andb negb] in *.
    + assert (s = rp) as -> by lia. simplify_eq. by apply entry_ltb_le.
    + assert (s = lp) as -> by lia. by simplify_eq.
  - assert (s = rp) as -> by lia. congruence.
Qed.

Lemma down_inv_step (h : list entry) (pos : nat) (c : entry) :
  down_inv h pos →
  h !! smaller_child h (length h) pos = Some c →
  down_inv (<[pos := c]> h) (smaller_child h (length h) pos).
Proof.
  intros (Hpos & HC & HD) Hc.
  pose proof (smaller_child_cases h (length h) pos) as Hcases.
  pose proof (smaller_child_le h pos) as Hle.
  set (cp := smaller_child h (length h) pos) in *. clearbody cp.
  assert (Hcp1 : (1 <= cp)%nat) by lia.
  assert (Hcpp : parent cp = pos) by (apply parent_children; [done|lia]).
  pose proof (lookup_lt_Some _ _ _ Hc) as Hcplt.
  split_and!.
  - by rewrite length_insert.
  - intros i Hi Hne Hpar y q Hy Hq.
    destruct (decide (i = pos)) as [->|Hip].
    + pose proof (parent_lt pos Hi).
      apply (HD cp y q); resolve_lookups; done.
    + assert (h !! i = Some y) as Hy' by (resolve_lookups; done).
      destruct (decide (parent i = pos)) as [Hpp|Hpp].
      * assert (q = c) as -> by (resolve_lookups; done).
        by apply (Hle i c y).
      * apply (HC i Hi Hip Hpp y q); resolve_lookups; done.
  - intros i v q _ Hi Hpar Hv Hq.
    pose proof (parent_lt i Hi). pose proof (parent_lt cp Hcp1).
    assert (q = c) as -> by (resolve_lookups; done).
    assert (h !! i = Some v) as Hv' by (resolve_lookups; done).
    apply (HC i Hi ltac:(lia) ltac:(lia) v c); [done|congruence].
Qed.

Lemma down_inv_leaf (h : list entry) (pos : nat) (x : entry) :
  down_inv h pos → (length h <= 2 * pos + 1)%nat → up_inv h pos x.
Proof.
  intros (Hpos & HC & HD) Hleaf. split_and!; [done|..].
  - intros i Hi Hne y q Hy Hq.
    destruct (decide (parent i = pos)) as [Hpar|Hpar].
    + apply parent_children in Hpar; [|done].
      apply lookup_lt_Some in Hy. rewrite length_insert in Hy. lia.
    + apply (HC i Hi Hne Hpar y q); resolve_lookups; done.
  - intros i c p _ Hi Hpar Hc _. apply parent_children in Hpar; [|done].
    apply lookup_lt_Some in Hc. lia.
Qed.

Lemma siftup_loop_inv (fuel : nat) (endpos : nat) :
  ∀ (h h' : list entry) (pos leaf : nat),
    endpos = length h → (endpos <= fuel + pos)%nat → down_inv h pos →
    siftup_loop fuel h endpos pos = (h', leaf) →
    ∀ x, up_inv h' leaf x.
Proof.
  induction fuel as [|fuel IH]; intros h h' pos leaf -> Hfuel Hinv;
    cbn [siftup_loop].
  { destruct Hinv as (? & _). lia. }
  destruct (Nat.ltb_spec (2 * pos + 1) (length h)) as [Hlt|Hge].
  2:{ intros [= <- <-] x. by apply down_inv_leaf. }
  pose proof (smaller_child_cases h (length h) pos) as Hcases.
  destruct (h !! smaller_child h (length h) pos) as [c|] eqn:Hc.
  - intros Hrun. eapply IH; [| |by apply down_inv_step|exact Hrun].
    + by rewrite length_insert.
    + lia.
  - exfalso. unfold smaller_child in *.
    destruct (h !! (2 * pos + 1)%nat) as [l|] eqn:Hl.
    2:{ apply lookup_ge_None in Hl. lia. }
    destruct (h !! (2 * pos + 1 + 1)%nat) as [r|] eqn:Hr; [|congruence].
    destruct (_ && _); congruence.
Qed.

Lemma array_heap_min (e : entry) (h : list entry) :
  array_heap (e :: h) → Forall (entry_le e) h.
Proof.
  intros Hheap.
  assert (Hall : ∀ i x, (e :: h) !! i = Some x → entry_le e x).
  { intros i. induction (lt_wf i) as [i _ IH]. intros x Hx.
    destruct (decide (i = 0%nat)) as [->|Hi].
    - injection Hx as <-. apply entry_le_refl.
    - pose proof (parent_lt i ltac:(lia)) as Hlt.
      destruct (lookup_lt_is_Some_2 (e :: h) (parent i)) as [p Hp].
      { apply lookup_lt_Some in Hx. lia. }
      eapply entry_le_trans; [by apply (IH (parent i) Hlt p)|].
      apply (Hheap i ltac:(lia) x p); done. }
  apply Forall_lookup_2. intros i x Hx. by apply (Hall (S i)).
Qed.

Lemma array_heappush_perm (h : list entry) (x : entry) :
  array_heappush h x ≡ₚ x :: h.
Proof.
  unfold array_heappush, _siftdown.
  rewrite list_lookup_middle by done.
  rewrite siftdown_loop_perm by (rewrite length_app; simpl; lia).
  rewrite list_insert_id by by apply list_lookup_middle.
  by rewrite Permutation_app_comm.
Qed.

Lemma array_heappush_heap (h : list entry) (x : entry) :
  array_heap h → array_heap (array_heappush h x).
Proof.
  intros Hheap. unfold array_heappush, _siftdown.
  rewrite list_lookup_middle by done.
  apply siftdown_loop_heap; [done|]. split_and!.
  - rewrite length_app. simpl. lia.
  - rewrite list_insert_id by by apply list_lookup_middle.
    intros i Hi Hne y q Hy Hq. pose proof (parent_lt i Hi).
    apply lookup_snoc_Some in Hy as [[Hlt Hy]|[? _]]; [|done].
    rewrite lookup_app_l in Hq by lia. by apply (Hheap i Hi y q).
  - intros i c p _ Hi Hpar Hc _. apply parent_children in Hpar; [|done].
    apply lookup_lt_Some in Hc. rewrite length_app in Hc. simpl in Hc. lia.
Qed.

Lemma array_heapreplace_spec (e : entry) (h : list entry) (x : entry) :
  array_heap (e :: h) →
  ∃ h', array_heapreplace (e :: h) x = Ok h' ∧ array_heap h' ∧ h' ≡ₚ x :: h.
Proof.
  intros Hheap. eexists. split; [reflexivity|].
  unfold _siftup. cbn [insert list_insert lookup list_lookup].
  destruct (siftup_loop (length (x :: h)) (x :: h) (length (x :: h)) 0)
    as [h' leaf] eqn:Hrun.
  assert (H0 : (0 < length (x :: h))%nat) by (simpl; lia).
  pose proof (siftup_loop_perm _ _ _ _ _ _ H0 Hrun) as (Hlen & Hleaf & Hperm).
  assert (Hinv : ∀ y, up_inv h' leaf y).
  { apply (siftup_loop_inv (length (x :: h)) (length (x :: h)) (x :: h) h'
             0 leaf); [done|lia| |exact Hrun].
    split_and!; [simpl; lia| |lia].
    intros i Hi _ Hpar y q Hy Hq. destruct i as [|i]; [lia|].
    assert (parent (S i) ≠ 0%nat) as Hp0 by done.
    destruct (parent (S i)) as [|j] eqn:Hj; [done|].
    apply (Hheap (S i) Hi y q); [done|by rewrite Hj]. }
  unfold _siftdown. rewrite list_lookup_insert_eq by lia. split.
  - apply siftdown_loop_heap; [done|].
    destruct (Hinv x) as (? & HA & HB). split_and!.
    + by rewrite length_insert.
    + by rewrite list_insert_insert_eq.
    + intros i c p Hl Hi Hpar Hc Hp. pose proof (parent_lt leaf Hl).
      pose proof (parent_lt i Hi). resolve_lookups. by apply (HB i c p).
  - rewrite siftdown_loop_perm by (rewrite length_insert; lia).
    rewrite list_insert_insert_eq. by rewrite Hperm.
Qed.

(** The library's algorithm meets the contract. *)
#[local] Instance array_ops : Ops.
Proof.
  refine {| is_heap := array_heap;
            heappush := array_heappush;
            heapreplace := array_heapreplace |}.
  - intros i Hi x p Hx. by rewrite lookup_nil in Hx.
  - apply array_heap_min.
  - intros h x. apply array_heappush_heap.
  - intros h x _. apply array_heappush_perm.
  - done.
  - apply array_heapreplace_spec.
Defined.

End HeapqFacts.

(** ** Min-hash sampler *)

Module MinWiseSamplerFacts.
Import MinWiseSampler.
Section Facts.

Variable sha256_int : string → Z.
Context {heapq : Heapq.Ops}.

Local Abbreviation consider := (consider sha256_int).
Local Abbreviation consider_all := (consider_all sha256_int).
Local Abbreviation retains := (retains sha256_int).
Local Abbreviation hash := (_hash_item sha256_int).

Lemma init_retains (kk : Z) :
  0 <= kk → ∃ self, init kk = Ok self ∧ retains self kk [] [].
Proof.
  intros Hk. eexists. split; [reflexivity|].
  unfold MinWiseSampler.retains, sample. simpl.
  split_and!; try done; [apply Heapq.is_heap_nil|set_solver].
Qed.

Lemma consider_push (self : t) (kk : Z) (seen rest : list string) (x : string) :
  retains self kk seen rest →
  Z.of_nat (length (heap self)) < kk →
  ∃ self', consider self x = Ok self' ∧ retains self' kk (seen ++ [x]) [].
Proof.
  intros (Hk & Hheap & Hneg & Hperm & Hle & Hfull & Hmin) Hlt.
  assert (rest = []) as ->.
  { destruct rest; [done|]. exfalso. assert (Z.of_nat (length (heap self)) = kk)
      by by apply Hfull. lia. }
  unfold MinWiseSampler.consider. rewrite Hk.
  destruct (Z.ltb_spec (Z.of_nat (length (heap self))) kk); [|lia].
  eexists. split; [reflexivity|].
  pose proof (Heapq.heappush_perm (heap self) (- hash x, x) Hheap) as Hp.
  unfold MinWiseSampler.retains, sample. simpl.
  split_and!; try done.
  - by apply Heapq.heappush_is_heap.
  - rewrite Hp. by constructor.
  - rewrite Hp, Hperm. unfold sample. simpl. solve_Permutation.
  - rewrite Hp. simpl. lia.
  - intros ? ? _ Hy. by apply elem_of_nil in Hy.
Qed.

Lemma consider_full (self : t) (kk : Z) (seen rest : list string) (x : string) :
  1 <= kk →
  retains self kk seen rest →
  Z.of_nat (length (heap self)) = kk →
  ∃ self' rest', consider self x = Ok self'
    ∧ retains self' kk (seen ++ [x]) rest'
    ∧ rest' ≠ [].
Proof.
  intros Hk1 (Hk & Hheap & Hneg & Hperm & Hle & Hfull & Hmin) Hlen.
  unfold MinWiseSampler.consider. rewrite Hk.
  destruct (Z.ltb_spec (Z.of_nat (length (heap self))) kk); [lia|].
  destruct (heap self) as [|top h] eqn:Hh; [simpl in Hlen; lia|].
  replace (getitem (top :: h) 0) with (Ok top).
  2:{ unfold getitem. rewrite norm_index_in_range by (simpl; lia). done. }
  cbn [mbind result_bind].
  pose proof (Heapq.is_heap_min top h Hheap) as Htop.
  assert (Htop' : ∀ z, z ∈ snd <$> h → hash z <= hash top.2).
  { intros z (e & -> & He)%list_elem_of_fmap.
    inversion Hneg as [|? ? Hnt Hnh]; subst.
    eapply Forall_forall in Hnh; [|exact He].
    eapply Forall_forall in Htop; [|exact He].
    apply HeapqFacts.entry_le_fst in Htop. lia. }
  inversion Hneg as [|? ? Hnt Hnh]; subst.
  destruct (Z.ltb_spec (hash x) (- top.1)) as [Hx|Hx].
  - destruct (Heapq.heapreplace_cons top h (- hash x, x) Hheap)
      as (h' & -> & Hheap' & Hp).
    cbn [mbind result_bind]. eexists _, (top.2 :: rest).
    split; [reflexivity|]. split; [|done].
    unfold MinWiseSampler.retains, sample in *. rewrite Hh in *. simpl in *.
    split_and!; try done.
    + rewrite Hp. by constructor.
    + rewrite Hp, Hperm. simpl. solve_Permutation.
    + rewrite Hp. simpl. lia.
    + intros _. rewrite Hp. simpl. lia.
    + intros a b Ha Hb. rewrite Hp in Ha. simpl in Ha.
      apply elem_of_cons in Ha as [->|Ha], Hb as [->|Hb].
      * lia.
      * assert (hash top.2 <= hash b)
          by (apply Hmin; [apply elem_of_cons; by left|done]).
        lia.
      * by apply Htop'.
      * apply Hmin; [apply elem_of_cons; by right|done].
  - exists self, (x :: rest). split; [done|]. split; [|done].
    unfold MinWiseSampler.retains, sample in *. rewrite Hh in *. simpl in *.
    split_and!; try done.
    + rewrite Hperm. solve_Permutation.
    + intros a b Ha Hb.
      apply elem_of_cons in Hb as [->|Hb]; [|by apply Hmin].
      apply elem_of_cons in Ha as [->|Ha]; [lia|].
      specialize (Htop' a Ha). lia.
Qed.


Lemma consider_retains (self : t) (kk : Z) (seen rest : list string)
    (x : string) :
  1 <= kk → retains self kk seen rest →
  ∃ self' rest', consider self x = Ok self'
    ∧ retains self' kk (seen ++ [x]) rest'.
Proof.
  intros Hk Hr. pose proof Hr as (_ & _ & _ & _ & Hle & _).
  destruct (decide (Z.of_nat (length (heap self)) < kk)) as [Hlt|Hge].
  - destruct (consider_push self kk seen rest x Hr Hlt) as (self' & ? & ?).
    by exists self', [].
  - destruct (consider_full self kk seen rest x Hk Hr) as (self' & rest' & ? & ? & _);
      [lia|].
    by exists self', rest'.
Qed.

Lemma consider_all_retains (items : list string) :
  ∀ (self : t) (kk : Z) (seen rest : list string),
    1 <= kk → retains self kk seen rest →
    ∃ self' rest', consider_all self items = Ok self'
      ∧ retains self' kk (seen ++ items) rest'.
Proof.
  induction items as [|x items IH]; intros self kk seen rest Hk Hr.
  - exists self, rest. by rewrite app_nil_r.
  - destruct (consider_retains self kk seen rest x Hk Hr)
      as (self1 & rest1 & Hc & Hr1).
    destruct (IH self1 kk (seen ++ [x]) rest1 Hk Hr1)
      as (self' & rest' & Hrun & Hr').
    exists self', rest'. cbn [MinWiseSampler.consider_all]. rewrite Hc.
    cbn [mbind result_bind]. split; [done|].
    by rewrite <- app_assoc in Hr'.
Qed.

(** C8. With [k >= 1], after [consider] has been called on [N > k] distinct
    items, every call has succeeded and [sample()] holds exactly [k] of the
    items, without repetition, none of them with a larger hash than an item
    that was left out; and a full sampler is left unchanged by an item whose
    hash is not strictly below the largest retained hash, so that on a tie
    the existing entry stays. *)
Theorem sample_holds_k_smallest_hashes (kk : Z) (items : list string) :
  1 <= kk → kk < Z.of_nat (length items) → NoDup items →
  (∃ self,
     (self0 ← init kk; consider_all self0 items) = Ok self
     ∧ Z.of_nat (length (sample self)) = kk
     ∧ NoDup (sample self)
     ∧ sample self ⊆ items
     ∧ ∀ x y, x ∈ sample self → y ∈ items → y ∉ sample self →
         hash x <= hash y)
  ∧ (∀ (self : t) (top : Heapq.entry) (h : list Heapq.entry) (item : string),
       heap self = top :: h → k self <= Z.of_nat (length (heap self)) →
       - top.1 <= hash item → consider self item = Ok self).
Proof.
  intros Hk HN Hnd. split.
  - destruct (init_retains kk) as (self0 & -> & Hr0);
      [lia|].
    cbn [mbind result_bind].
    destruct (consider_all_retains items self0 kk [] [] Hk Hr0)
      as (self & rest & Hrun & (_ & _ & _ & Hperm & Hle & Hfull & Hmin)).
    simpl in Hperm. exists self. split; [done|].
    assert (Hlen : length items = (length (sample self) + length rest)%nat)
      by by rewrite Hperm, length_app.
    assert (Hsl : length (sample self) = length (heap self))
      by (unfold sample; by rewrite length_fmap).
    rewrite Hperm in Hnd. apply NoDup_app in Hnd as (Hnd1 & Hdisj & _).
    split_and!.
    + rewrite Hsl. apply Hfull. intros ->. simpl in Hlen. lia.
    + done.
    + intros x Hx. rewrite Hperm. apply elem_of_app. by left.
    + intros x y Hx Hy Hny. apply Hmin; [done|].
      rewrite Hperm in Hy. apply elem_of_app in Hy as [?|?]; done.
  - intros self top h item Hh Hfull Htie.
    unfold MinWiseSampler.consider. rewrite Hh in *.
    destruct (Z.ltb_spec (Z.of_nat (length (top :: h))) (k self)); [lia|].
    replace (getitem (top :: h) 0) with (Ok top).
    2:{ unfold getitem. rewrite norm_index_in_range by (simpl; lia). done. }
    cbn [mbind result_bind].
    destruct (Z.ltb_spec (hash item) (- top.1)); [lia|done].
Qed.

End Facts.

(** C8 for [k = 2] and four items, with the length of an item as its hash
    and the library's array heap. *)
Lemma sample_holds_k_smallest_hashes_witness :
  let hash := fun s : string => Z.of_nat (String.length s) in
  let items := ["ccc"; "a"; "dddd"; "bb"]%string in
  let ops := HeapqFacts.array_ops in
  (∃ self,
     (self0 ← init 2; consider_all hash self0 items) = Ok self
     ∧ Z.of_nat (length (sample self)) = 2
     ∧ NoDup (sample self)
     ∧ sample self ⊆ items
     ∧ ∀ x y, x ∈ sample self → y ∈ items → y ∉ sample self →
         hash x <= hash y)
  ∧ (∀ (self : t) (top : Heapq.entry) (h : list Heapq.entry) (item : string),
       heap self = top :: h → k self <= Z.of_nat (length (heap self)) →
       - top.1 <= hash item → consider hash self item = Ok self).
Proof.
  intros hash items ops.
  apply (sample_holds_k_smallest_hashes hash (heapq := ops) 2 items);
    [lia|simpl; lia|].
  apply (bool_decide_unpack _). by vm_compute.
Defined.

Section Capacity.

Variable sha256_int : string → Z.
Context {heapq : Heapq.Ops}.

Local Abbreviation consider_all := (consider_all sha256_int).
Local Abbreviation retains := (retains sha256_int).
Local Abbreviation hash := (_hash_item sha256_int).

Lemma run_retains (kk : Z) (items : list string) :
  1 <= kk →
  ∃ self rest,
    (self0 ← init kk; consider_all self0 items) = Ok self
    ∧ retains self kk items rest.
Proof.
  intros Hk.
  destruct (init_retains sha256_int kk) as (self0 & -> & Hr0); [lia|].
  cbn [mbind result_bind].
  destruct (consider_all_retains sha256_int items self0 kk [] [] Hk Hr0)
    as (self & rest & Hrun & Hr).
  by exists self, rest.
Qed.

(** For [k >= 1] the sample never holds more than [k] items: after [N]
    items it holds [min(k, N)], and while [N <= k] it holds every item that
    was considered, repetitions included. *)
Theorem sample_size_and_short_streams (kk : Z) (items : list string) :
  1 <= kk →
  ∃ self,
    (self0 ← init kk; consider_all self0 items) = Ok self
    ∧ Z.of_nat (length (sample self))
      = Z.min kk (Z.of_nat (length items))
    ∧ (Z.of_nat (length items) <= kk → sample self ≡ₚ items).
Proof.
  intros Hk.
  destruct (run_retains kk items Hk)
    as (self & rest & Hrun & (_ & _ & _ & Hperm & Hle & Hfull & _)).
  exists self. split; [done|].
  assert (Hlen : length items = (length (sample self) + length rest)%nat)
    by by rewrite Hperm, length_app.
  assert (Hsl : length (sample self) = length (heap self))
    by (unfold sample; by rewrite length_fmap).
  destruct rest as [|y rest].
  - rewrite app_nil_r in Hperm. simpl in Hlen. split; [lia|done].
  - assert (Z.of_nat (length (heap self)) = kk) by by apply Hfull.
    simpl in Hlen. split; lia.
Qed.

(** When distinct items have distinct hashes, the sample does not depend on
    the order of arrival: two orders of the same items give the same
    sample, up to its own order. *)
Theorem sample_order_independent (kk : Z) (items items' : list string) :
  1 <= kk → NoDup items → items ≡ₚ items' →
  (∀ x y, x ∈ items → y ∈ items → hash x = hash y → x = y) →
  ∃ self self',
    (self0 ← init kk; consider_all self0 items) = Ok self
    ∧ (self0 ← init kk; consider_all self0 items') = Ok self'
    ∧ sample self ≡ₚ sample self'.
Proof.
  intros Hk Hnd Hperm Hinj.
  destruct (run_retains kk items Hk)
    as (self & rest & Hrun & (_ & _ & _ & Hp & Hle & Hfull & Hmin)).
  destruct (run_retains kk items' Hk)
    as (self' & rest' & Hrun' & (_ & _ & _ & Hp' & Hle' & Hfull' & Hmin')).
  exists self, self'. split_and!; [done|done|].
  rewrite <- Hperm in Hp'.
  assert (Hnd1 : NoDup (sample self ++ rest)) by by rewrite <- Hp.
  assert (Hnd2 : NoDup (sample self' ++ rest')) by by rewrite <- Hp'.
  apply NoDup_app in Hnd1 as (Hs1 & Hd1 & _).
  apply NoDup_app in Hnd2 as (Hs2 & Hd2 & _).
  assert (Hl1 : length items = (length (sample self) + length rest)%nat)
    by by rewrite Hp, length_app.
  assert (Hl2 : length items = (length (sample self') + length rest')%nat)
    by by rewrite Hp', length_app.
  assert (Hh1 : length (sample self) = length (heap self))
    by (unfold sample; by rewrite length_fmap).
  assert (Hh2 : length (sample self') = length (heap self'))
    by (unfold sample; by rewrite length_fmap).
  assert (Hsame : length (sample self) = length (sample self')).
  { destruct rest as [|r rest], rest' as [|r' rest']; simpl in *.
    - lia.
    - specialize (Hfull' ltac:(done)). lia.
    - specialize (Hfull ltac:(done)). lia.
    - specialize (Hfull ltac:(done)). specialize (Hfull' ltac:(done)). lia. }
  assert (Hin : ∀ z, z ∈ sample self ∨ z ∈ rest ↔ z ∈ items).
  { intros z. by rewrite Hp, elem_of_app. }
  assert (Hin' : ∀ z, z ∈ sample self' ∨ z ∈ rest' ↔ z ∈ items).
  { intros z. by rewrite Hp', elem_of_app. }
  symmetry. apply submseteq_length_Permutation; [|lia].
  apply NoDup_submseteq; [done|]. intros y Hy.
  destruct (decide (y ∈ sample self)) as [|Hny]; [done|]. exfalso.
  assert (Hyr : y ∈ rest).
  { destruct (proj2 (Hin y)) as [?|?]; [apply Hin'; by left|done|done]. }
  destruct (decide (Forall (fun x => x ∈ sample self') (sample self)))
    as [Hall|Hnall].
  - assert (sample self ≡ₚ sample self') as Heq.
    { apply submseteq_length_Permutation; [|lia].
      apply NoDup_submseteq; [done|]. by apply Forall_forall. }
    apply Hny. by rewrite Heq.
  - apply not_Forall_Exists in Hnall; [|apply _].
    apply Exists_exists in Hnall as (x & Hx & Hnx). simpl in Hnx.
    assert (Hxr : x ∈ rest').
    { destruct (proj2 (Hin' x)) as [?|?]; [apply Hin; by left|done|done]. }
    assert (x = y) as ->.
    { apply Hinj; [apply Hin; by left|apply Hin; by right|].
      pose proof (Hmin x y Hx Hyr). pose proof (Hmin' y x Hy Hxr). lia. }
    done.
Qed.

End Capacity.

(** A stream shorter than the sample size, on the library's array heap. *)
Lemma sample_size_and_short_streams_witness :
  let hash := fun s : string => Z.of_nat (String.length s) in
  let ops := HeapqFacts.array_ops in
  let items := ["ccc"; "a"; "a"]%string in
  ∃ self,
    (self0 ← init 5; consider_all hash self0 items) = Ok self
    ∧ Z.of_nat (length (sample self)) = Z.min 5 (Z.of_nat (length items))
    ∧ (Z.of_nat (length items) <= 5 → sample self ≡ₚ items).
Proof.
  intros hash ops items.
  apply (sample_size_and_short_streams hash (heapq := ops) 5 items). lia.
Defined.

(** Two orders of four items with distinct lengths as hashes. *)
Lemma sample_order_independent_witness :
  let hash := fun s : string => Z.of_nat (String.length s) in
  let ops := HeapqFacts.array_ops in
  ∃ self self',
    (self0 ← init 2; consider_all hash self0 ["ccc"; "a"; "dddd"; "bb"]%string)
      = Ok self
    ∧ (self0 ← init 2;
         consider_all hash self0 ["bb"; "dddd"; "a"; "ccc"]%string) = Ok self'
    ∧ sample self ≡ₚ sample self'.
Proof.
  intros hash ops.
  apply (sample_order_independent hash (heapq := ops) 2); [lia|..].
  - apply (bool_decide_unpack _). by vm_compute.
  - solve_Permutation.
  - intros x y Hx Hy.
    repeat (apply elem_of_cons in Hx as [->|Hx]);
      try (by apply elem_of_nil in Hx);
      repeat (apply elem_of_cons in Hy as [->|Hy]);
      try (by apply elem_of_nil in Hy); by vm_compute.
Defined.

End MinWiseSamplerFacts.

(** ** Membership filter *)

Module BloomFilterFacts.
Import BloomFilter.
Section Facts.

Variable hash : Z → string → Z.

Local Abbreviation insert := (insert hash).
Local Abbreviation contains := (contains hash).
Local Abbreviation position := (position hash).
Local Abbreviation mark_play_analyzed := (mark_play_analyzed hash).
Local Abbreviation check_play_analyzed := (check_play_analyzed hash).
Local Abbreviation mark_all := (mark_all hash).

Lemma set_bits_length (f : Z → nat) (ss : list Z) :
  ∀ b : list bool,
    length (foldl (fun b s => <[f s := true]> b) b ss) = length b.
Proof.
  induction ss as [|s ss IH]; intros b; simpl; [done|].
  by rewrite IH, length_insert.
Qed.

Lemma set_bits_keep (f : Z → nat) (ss : list Z) (p : nat) :
  ∀ b : list bool, b !! p = Some true →
    foldl (fun b s => <[f s := true]> b) b ss !! p = Some true.
Proof.
  induction ss as [|s ss IH]; intros b Hp; simpl; [done|].
  apply IH. destruct (decide (f s = p)) as [<-|Hne].
  - apply list_lookup_insert_eq. by eapply lookup_lt_Some.
  - by rewrite list_lookup_insert_ne.
Qed.

Lemma set_bits_set (f : Z → nat) (ss : list Z) (s : Z) :
  ∀ b : list bool, s ∈ ss → (f s < length b)%nat →
    foldl (fun b s => <[f s := true]> b) b ss !! f s = Some true.
Proof.
  induction ss as [|s' ss IH]; intros b Hs Hlt; simpl.
  - by apply elem_of_nil in Hs.
  - apply elem_of_cons in Hs as [<-|Hs].
    + apply set_bits_keep. by apply list_lookup_insert_eq.
    + apply IH; [done|]. by rewrite length_insert.
Qed.

Lemma position_lt (self : t) (key : string) (s : Z) :
  bits self ≠ [] → (position self key s < length (bits self))%nat.
Proof.
  intros Hne. unfold BloomFilter.position.
  assert (0 < Z.of_nat (length (bits self))).
  { destruct (bits self); [done|simpl; lia]. }
  pose proof (Z.mod_pos_bound (hash s key) (Z.of_nat (length (bits self)))).
  lia.
Qed.

Lemma insert_length (self : t) (key : string) :
  length (bits (insert self key)) = length (bits self).
Proof. unfold BloomFilter.insert. simpl. apply set_bits_length. Qed.

Lemma insert_position (self : t) (key key' : string) (s : Z) :
  position (insert self key) key' s = position self key' s.
Proof. unfold BloomFilter.position. by rewrite insert_length. Qed.

Lemma insert_contains (self : t) (key : string) :
  bits self ≠ [] → contains (insert self key) key = true.
Proof.
  intros Hne. unfold BloomFilter.contains. apply forallb_forall.
  intros s Hs%list_elem_of_In. apply bool_decide_eq_true.
  rewrite insert_position. unfold BloomFilter.insert. simpl.
  apply (set_bits_set (position self key)); [done|by apply position_lt].
Qed.

Lemma insert_keeps (self : t) (key key' : string) :
  contains self key' = true → contains (insert self key) key' = true.
Proof.
  unfold BloomFilter.contains. rewrite !forallb_forall.
  intros Hc s Hs. apply bool_decide_eq_true. rewrite insert_position.
  specialize (Hc s Hs). apply bool_decide_eq_true in Hc.
  unfold BloomFilter.insert. simpl. by apply set_bits_keep.
Qed.

Lemma mark_all_keeps (keys : list string) (key : string) :
  ∀ bf, contains bf key = true → contains (mark_all bf keys) key = true.
Proof.
  induction keys as [|k keys IH]; intros bf Hc; [done|].
  apply IH. by apply insert_keeps.
Qed.

Lemma mark_all_nonempty (keys : list string) :
  ∀ bf, bits bf ≠ [] → bits (mark_all bf keys) ≠ [].
Proof.
  induction keys as [|k keys IH]; intros bf Hne; [done|].
  apply IH. unfold BloomFilter.mark_play_analyzed. intros Hnil. apply Hne.
  apply length_zero_iff_nil. by rewrite <- (insert_length bf k), Hnil.
Qed.

(** C9. In a filter with at least one bit, every key that was passed to
    [mark_play_analyzed] is reported by [check_play_analyzed] from then on,
    whatever is marked afterwards: there is no false negative. *)
Theorem no_false_negative (num_bits : Z) (seeds : list Z)
    (before after : list string) (key : string) :
  0 < num_bits →
  check_play_analyzed
    (mark_all (mark_play_analyzed (mark_all (create num_bits seeds) before) key)
              after)
    key = true.
Proof.
  intros Hm. unfold BloomFilter.check_play_analyzed.
  apply mark_all_keeps. apply insert_contains. apply mark_all_nonempty.
  simpl. unfold repeat_list.
  destruct (Z.to_nat num_bits) eqn:E; [lia|done].
Qed.

End Facts.

(** C9 on eight bits and two seeds. *)
Lemma no_false_negative_witness :
  let hash := fun (seed : Z) (key : string) =>
    seed * Z.of_nat (String.length key) + 1 in
  check_play_analyzed hash
    (mark_all hash
       (mark_play_analyzed hash
          (mark_all hash (create 8 [3; 5]) ["p1"; "p22"]%string) "p333")
       ["p4444"]%string)
    "p333" = true.
Proof.
  intros hash.
  apply (no_false_negative hash 8 [3; 5] ["p1"; "p22"]%string
           ["p4444"]%string "p333").
  lia.
Defined.

End BloomFilterFacts.

(** ** Online transition model *)

Module OnlineMarkovModelFacts.
Import OnlineMarkovModel.
Local Open Scope Q_scope.

Lemma make_idx_fold (l : list (nat * string)) :
  ∀ (m : gmap string nat) (s : string),
    (is_Some (foldl (fun m '(i, s) => <[s := i]> m) m l !! s)
     ↔ is_Some (m !! s) ∨ s ∈ l.*2)
    ∧ ∀ (N : nat) (i : nat),
        (∀ s' j, m !! s' = Some j → (j < N)%nat) →
        Forall (fun p => (p.1 < N)%nat) l →
        foldl (fun m '(i, s) => <[s := i]> m) m l !! s = Some i → (i < N)%nat.
Proof.
  induction l as [|[j s'] l IH]; intros m s; simpl.
  - split; [rewrite elem_of_nil; tauto|]. intros N i Hm _ Hi. by eapply Hm.
  - destruct (IH (<[s' := j]> m) s) as [IH1 IH2]. split.
    + rewrite IH1, elem_of_cons, lookup_insert_is_Some.
      destruct (decide (s' = s)) as [->|Hne]; [tauto|].
      split; [intros [[?|[_ ?]]|?]|intros [?|[?|?]]]; try tauto; congruence.
    + intros N i Hm Hl. inversion Hl as [|? ? Hj Hl']; subst.
      apply IH2; [|done]. intros s2 j2. rewrite lookup_insert_Some.
      intros [[_ <-]|[_ ?]]; [done|by eapply Hm].
Qed.

Lemma imap_pair_snd (states : list string) :
  ∀ g : nat → nat, (imap (fun i s => (g i, s)) states).*2 = states.
Proof.
  induction states as [|s states IH]; intros g; simpl; [done|].
  f_equal. apply (IH (g ∘ S)).
Qed.

Lemma imap_pair_fst (states : list string) :
  ∀ (k : nat),
    Forall (fun p : nat * string => (p.1 < k + length states)%nat)
           (imap (fun i s => ((k + i)%nat, s)) states).
Proof.
  induction states as [|s states IH]; intros k; simpl; [done|].
  constructor; [simpl; lia|].
  specialize (IH (S k)). eapply Forall_impl.
  - erewrite imap_ext; [exact IH|]. intros i x _. simpl. f_equal. lia.
  - intros [a b]. simpl. lia.
Qed.

Lemma make_idx_is_Some (states : list string) (s : string) :
  is_Some (make_idx states !! s) ↔ s ∈ states.
Proof.
  unfold make_idx.
  destruct (make_idx_fold (imap pair states) ∅ s) as [H _].
  replace ((imap pair states).*2) with states in H
    by (symmetry; apply (imap_pair_snd states id)).
  rewrite H, lookup_empty. split; [intros [[? ?]|?]; done|by right].
Qed.

Lemma make_idx_lt (states : list string) (s : string) (i : nat) :
  make_idx states !! s = Some i → (i < length states)%nat.
Proof.
  unfold make_idx.
  destruct (make_idx_fold (imap pair states) ∅ s) as [_ H].
  apply H; [by intros ? ?; rewrite lookup_empty|].
  apply (imap_pair_fst states 0).
Qed.

Section Invariant.

(** A property of single counts that the zero count has. *)
Variable ok : Q → Prop.
Hypothesis ok_zero : ok 0.

Lemma init_well_formed (states : list string) (sm : Q) :
  ∃ self, init states sm = Ok self ∧ well_formed ok self
    ∧ OnlineMarkovModel.states self = states ∧ smoothing self = sm.
Proof.
  eexists. split; [reflexivity|]. split; [|done].
  unfold well_formed. simpl. split_and!; try done.
  - by rewrite length_replicate.
  - apply Forall_replicate. split; [by rewrite length_replicate|].
    by apply Forall_replicate.
Qed.

Lemma add_at_ok (m : matrix) (N i j : nat) (w : Q) :
  (i < N)%nat → (j < N)%nat → (∀ x, ok x → ok (x + w)) →
  length m = N →
  Forall (fun row => length row = N ∧ Forall ok row) m →
  ∃ m', add_at m i j w = Ok m' ∧ length m' = N
    ∧ Forall (fun row => length row = N ∧ Forall ok row) m'.
Proof.
  intros Hi Hj Hw Hlen Hrows. unfold add_at.
  destruct (getitem_in_range m (Z.of_nat i)) as (row & Hrow & ->); [lia|].
  rewrite Nat2Z.id in Hrow. cbn [mbind result_bind].
  pose proof (Forall_lookup_1 _ _ _ _ Hrows Hrow) as [Hrl Hrn].
  destruct (getitem_in_range row (Z.of_nat j)) as (c & Hc & ->); [lia|].
  rewrite Nat2Z.id in Hc. cbn [mbind result_bind].
  unfold setitem. rewrite !norm_index_in_range by lia.
  cbn [mbind result_bind]. rewrite !Nat2Z.id.
  eexists. split; [reflexivity|]. rewrite length_insert. split; [done|].
  apply Forall_insert; [done|]. rewrite length_insert. split; [done|].
  apply Forall_insert; [done|]. apply Hw.
  by eapply (Forall_lookup_1 _ _ _ _ Hrn Hc).
Qed.

Lemma observe_transition_well_formed (self : t) (f g : string) (w : Q) :
  (∀ x, ok x → ok (x + w)) → well_formed ok self →
  ∃ self', observe_transition self f g w = Ok self' ∧ well_formed ok self'
    ∧ states self' = states self ∧ smoothing self' = smoothing self.
Proof.
  intros Hw Hwf. pose proof Hwf as (Hn & Hidx & Hlen & Hrows & Hcache).
  unfold observe_transition.
  destruct (idx self !! f) as [i|] eqn:Hf; [|by exists self].
  destruct (idx self !! g) as [j|] eqn:Hg; [|by exists self].
  rewrite Hidx in Hf, Hg. apply make_idx_lt in Hf, Hg.
  destruct (add_at_ok (counts self) (n self) i j w)
    as (m' & -> & Hlen' & Hrows'); try done; try lia.
  cbn [mbind result_bind]. eexists. split; [reflexivity|].
  split; [|done]. unfold well_formed. simpl. by split_and!.
Qed.

Lemma transition_matrix_spec (self : t) :
  well_formed ok self →
  (transition_matrix self).1 = compute_P (counts self) (smoothing self)
  ∧ well_formed ok (transition_matrix self).2
  ∧ same_counts self (transition_matrix self).2.
Proof.
  intros Hwf. pose proof Hwf as (Hn & Hidx & Hlen & Hrows & Hcache).
  unfold transition_matrix.
  destruct (cached_P self) as [P|] eqn:HP; simpl.
  - split; [by apply Hcache|]. by split.
  - split; [done|]. split; [|done].
    unfold well_formed. simpl. split_and!; try done. by intros ? [= <-].
Qed.

Lemma step_well_formed (self : t) (c : call) :
  match c with Observe _ _ w => ∀ x, ok x → ok (x + w) | _ => True end →
  well_formed ok self →
  ∃ self', step self c = Ok self' ∧ well_formed ok self'
    ∧ states self' = states self ∧ smoothing self' = smoothing self.
Proof.
  intros Hc Hwf.
  destruct (transition_matrix_spec self Hwf) as (_ & Hwf' & Hs & _ & _ & _ & Hsm).
  destruct c as [f g w| |s k|]; simpl.
  - by apply observe_transition_well_formed.
  - by eexists.
  - unfold predict_distribution. destruct (idx self !! s); [|by exists self].
    destruct (transition_matrix self) as [P self'] eqn:E. simpl in *.
    by eexists.
  - unfold is_aperiodic.
    destruct (transition_matrix self) as [P self'] eqn:E. simpl in *.
    destruct (existsb _ _); by eexists.
Qed.

Lemma run_well_formed (cs : list call) :
  ∀ self, weights_keep ok cs → well_formed ok self →
    ∃ self', run self cs = Ok self' ∧ well_formed ok self'
      ∧ states self' = states self ∧ smoothing self' = smoothing self.
Proof.
  induction cs as [|c cs IH]; intros self Hcs Hwf; [by exists self|].
  inversion Hcs as [|? ? Hc Hcs']; subst.
  destruct (step_well_formed self c Hc Hwf) as (self1 & Hstep & Hwf1 & Hs1 & Hm1).
  destruct (IH self1 Hcs' Hwf1) as (self' & Hrun & Hwf' & Hs' & Hm').
  exists self'. simpl. rewrite Hstep. cbn [mbind result_bind].
  split_and!; [done|done|congruence|congruence].
Qed.

Lemma init_run_well_formed (states : list string) (sm : Q) (cs : list call) :
  weights_keep ok cs →
  ∃ self, (self0 ← init states sm; run self0 cs) = Ok self
    ∧ well_formed ok self
    ∧ OnlineMarkovModel.states self = states ∧ smoothing self = sm.
Proof.
  intros Hcs.
  destruct (init_well_formed states sm) as (self0 & -> & Hwf0 & Hs0 & Hm0).
  cbn [mbind result_bind].
  destruct (run_well_formed cs self0 Hcs Hwf0) as (self & ? & ? & ? & ?).
  exists self. split_and!; [done|done|congruence|congruence].
Qed.

End Invariant.

Lemma observe_transition_unknown (self : t) (f g : string) (w : Q) :
  idx self !! f = None ∨ idx self !! g = None →
  observe_transition self f g w = Ok self.
Proof.
  intros H. unfold observe_transition.
  destruct (idx self !! f), (idx self !! g); try done; by destruct H.
Qed.

Lemma any_weights_keep (cs : list call) : weights_keep (fun _ => True) cs.
Proof. apply Forall_forall. by intros [| | |]. Qed.

(** Sums of rows of rationals. *)



(** C7. On a model reached from [init] by any sequence of calls, a label
    outside the state list makes [observe_transition] return without an
    error and without any change to the model, and makes
    [predict_distribution] return [None]. *)
Theorem unknown_state_ignored_or_signalled (states : list string) (sm : Q)
    (cs : list call) :
  ∃ self,
    (self0 ← init states sm; run self0 cs) = Ok self
    ∧ (∀ f g w, f ∉ states ∨ g ∉ states →
         observe_transition self f g w = Ok self)
    ∧ (∀ s steps, s ∉ states →
         predict_distribution self s steps = (None, self)).
Proof.
  destruct (init_run_well_formed (fun _ => True) I states sm cs)
    as (self & Hrun & (_ & Hidx & _) & Hst & _); [apply any_weights_keep|].
  exists self. split; [done|]. rewrite Hst in Hidx.
  assert (Hnone : ∀ s, s ∉ states → idx self !! s = None).
  { intros s Hs. apply eq_None_not_Some. rewrite Hidx.
    by rewrite make_idx_is_Some. }
  split.
  - intros f g w [Hf|Hg]; apply observe_transition_unknown; auto.
  - intros s steps Hs. unfold predict_distribution. by rewrite (Hnone s Hs).
Qed.


(** C7 on two states: the unknown label [zz]. *)
Lemma unknown_state_ignored_or_signalled_witness :
  let states := ["a"; "b"]%string in
  let cs := [Observe "a" "b" 1; TransitionMatrix] in
  ∃ self,
    (self0 ← init states (1 # 1000); run self0 cs) = Ok self
    ∧ observe_transition self "a" "zz" 1 = Ok self
    ∧ predict_distribution self "zz" 3 = (None, self).
Proof.
  intros states cs.
  destruct (unknown_state_ignored_or_signalled states (1 # 1000) cs)
    as (self & Hrun & Hobs & Hpred).
  exists self. split; [exact Hrun|]. split.
  - apply Hobs. right. apply (bool_decide_unpack _). by vm_compute.
  - apply Hpred. apply (bool_decide_unpack _). by vm_compute.
Defined.

(** The cache. *)

(** Whatever calls came before, [transition_matrix()] returns the matrix of
    the current counts, never a stale cached one, and a second call right
    after it returns the same matrix and changes nothing. *)
Theorem transition_matrix_is_never_stale (states : list string) (sm : Q)
    (cs : list call) :
  ∃ self,
    (self0 ← init states sm; run self0 cs) = Ok self
    ∧ (transition_matrix self).1 = compute_P (counts self) sm
    ∧ transition_matrix (transition_matrix self).2 = transition_matrix self.
Proof.
  destruct (init_run_well_formed (fun _ => True) I states sm cs)
    as (self & Hrun & Hwf & Hst & Hs); [apply any_weights_keep|].
  exists self. split; [done|].
  destruct (transition_matrix_spec _ self Hwf) as (HP & _ & _).
  rewrite Hs in HP. split; [done|].
  unfold transition_matrix in *.
  destruct (cached_P self) as [P|] eqn:E; simpl in *; by rewrite ?E.
Qed.


(** Dictionaries built by successive insertion. *)

Lemma foldl_insert_notin {K V A} `{Countable K} (key : A → K) (val : A → V)
    (f : gmap K V → A → gmap K V) (l : list A) :
  (∀ m p, f m p = <[key p := val p]> m) →
  ∀ m k, k ∉ key <$> l → foldl f m l !! k = m !! k.
Proof.
  intros Hf. induction l as [|p l IH]; intros m k Hk; [done|].
  cbn [foldl]. rewrite fmap_cons, not_elem_of_cons in Hk.
  destruct Hk as [Hne Hk]. rewrite IH, Hf by done.
  by rewrite lookup_insert_ne.
Qed.

Lemma foldl_insert_lookup {K V A} `{Countable K} (key : A → K) (val : A → V)
    (f : gmap K V → A → gmap K V) (l : list A) :
  (∀ m p, f m p = <[key p := val p]> m) →
  ∀ m p, NoDup (key <$> l) → p ∈ l → foldl f m l !! key p = Some (val p).
Proof.
  intros Hf. induction l as [|q l IH]; intros m p Hnd Hp.
  - by apply elem_of_nil in Hp.
  - rewrite fmap_cons in Hnd. apply NoDup_cons in Hnd as [Hq Hnd].
    cbn [foldl]. apply elem_of_cons in Hp as [->|Hp].
    + rewrite (foldl_insert_notin key val) by done.
      by rewrite Hf, lookup_insert_eq.
    + by apply IH.
Qed.

Lemma make_idx_lookup (states : list string) (i : nat) (s : string) :
  NoDup states → states !! i = Some s → make_idx states !! s = Some i.
Proof.
  intros Hnd Hi. unfold make_idx.
  apply (foldl_insert_lookup (A := nat * string) snd fst
           (fun m '(i, s) => <[s := i]> m) (imap pair states)
           ltac:(by intros m [??]) ∅ (i, s)).
  - change (NoDup (imap (fun i s => (id i, s)) states).*2).
    by rewrite imap_pair_snd.
  - apply elem_of_lookup_imap. by exists i, s.
Qed.

Lemma make_idx_Some (states : list string) (i : nat) (s : string) :
  NoDup states → make_idx states !! s = Some i ↔ states !! i = Some s.
Proof.
  intros Hnd. split; [|by apply make_idx_lookup].
  intros Hi.
  assert (s ∈ states) as [j Hj]%list_elem_of_lookup.
  { apply make_idx_is_Some. by eexists. }
  pose proof (make_idx_lookup _ _ _ Hnd Hj). congruence.
Qed.

Lemma to_dict_lookup (states : list string) (v : list Q) (j : nat)
    (s : string) :
  NoDup states → length v = length states → states !! j = Some s →
  to_dict states v !! s = v !! j.
Proof.
  intros Hnd Hlen Hj.
  destruct (lookup_lt_is_Some_2 v j) as [x Hx].
  { rewrite Hlen. by eapply lookup_lt_Some. }
  rewrite Hx. unfold to_dict.
  apply (foldl_insert_lookup (A := string * Q) fst snd
           (fun m '(s, x) => <[s := x]> m) (zip states v)
           ltac:(by intros m [??]) ∅ (s, x)).
  - rewrite fst_zip by lia. done.
  - apply list_elem_of_lookup. exists j.
    apply lookup_zip_with_Some. by exists s, x.
Qed.

(** Predictions. *)

(** With [steps] at most 0 the prediction is the point distribution at the
    current state: probability 1 there and 0 at every other state. *)
Theorem predict_distribution_without_steps (states : list string) (sm : Q)
    (cs : list call) :
  NoDup states →
  ∃ self,
    (self0 ← init states sm; run self0 cs) = Ok self
    ∧ ∀ s steps, s ∈ states → (steps <= 0)%Z →
        ∃ d, (predict_distribution self s steps).1 = Some d
          ∧ d !! s = Some 1
          ∧ ∀ s', s' ∈ states → s' ≠ s → d !! s' = Some 0.
Proof.
  intros Hnd.
  destruct (init_run_well_formed (fun _ => True) I states sm cs)
    as (self & Hrun & Hwf & Hst & Hs); [apply any_weights_keep|].
  exists self. split; [done|]. intros s steps Hin Hsteps.
  pose proof Hwf as (Hn & Hidx & _).
  destruct (proj2 (make_idx_is_Some states s) Hin) as [i Hi].
  pose proof (make_idx_lt _ _ _ Hi) as Hlt.
  apply make_idx_Some in Hi as Hsi; [|done].
  unfold predict_distribution. rewrite Hidx, Hst, Hi.
  destruct (transition_matrix self) as [P self'] eqn:E.
  eexists. split; [reflexivity|].
  replace (Z.to_nat steps) with 0%nat by lia. cbn [Nat.iter nat_rect].
  rewrite Hn, Hst.
  assert (length (<[i := 1]> (replicate (length states) 0)) = length states)
    as Hlen by by rewrite length_insert, length_replicate.
  split.
  - rewrite (to_dict_lookup _ _ i) by done.
    apply list_lookup_insert_eq. by rewrite length_replicate.
  - intros s' [j Hj]%list_elem_of_lookup Hne.
    rewrite (to_dict_lookup _ _ j) by done.
    rewrite list_lookup_insert_ne by congruence.
    apply lookup_replicate_2. by eapply lookup_lt_Some.
Qed.




Lemma add_at_entry (m : matrix) (N i j : nat) (w : Q) :
  (i < N)%nat → (j < N)%nat → length m = N →
  Forall (fun row => length row = N) m →
  ∃ m', add_at m i j w = Ok m'
    ∧ entry 0 m' i j = entry 0 m i j + w
    ∧ ∀ i' j', (i', j') ≠ (i, j) → entry 0 m' i' j' = entry 0 m i' j'.
Proof.
  intros Hi Hj Hlen Hrows. unfold add_at.
  destruct (getitem_in_range m (Z.of_nat i)) as (row & Hrow & ->); [lia|].
  rewrite Nat2Z.id in Hrow. cbn [mbind result_bind].
  pose proof (Forall_lookup_1 _ _ _ _ Hrows Hrow) as Hrl. simpl in Hrl.
  destruct (getitem_in_range row (Z.of_nat j)) as (c & Hc & ->); [lia|].
  rewrite Nat2Z.id in Hc. cbn [mbind result_bind].
  unfold setitem. rewrite !norm_index_in_range by lia.
  cbn [mbind result_bind]. rewrite !Nat2Z.id.
  eexists. split; [reflexivity|]. unfold entry. split.
  - rewrite list_lookup_insert_eq by lia. simpl.
    rewrite list_lookup_insert_eq by lia. by rewrite Hrow; simpl; rewrite Hc.
  - intros i' j' Hne. destruct (decide (i' = i)) as [->|Hi'].
    + rewrite list_lookup_insert_eq by lia. rewrite Hrow. simpl.
      rewrite list_lookup_insert_ne; [done|]. congruence.
    + by rewrite list_lookup_insert_ne.
Qed.

(** An observation between two known states adds its weight to the count of
    that one pair of states and to no other, and the next transition matrix
    is computed from the new counts. *)
Theorem observe_transition_adds_to_one_count (states : list string) (sm : Q)
    (cs : list call) :
  NoDup states →
  ∃ self,
    (self0 ← init states sm; run self0 cs) = Ok self
    ∧ ∀ i j f g w, states !! i = Some f → states !! j = Some g →
        ∃ self', observe_transition self f g w = Ok self'
          ∧ entry 0 (counts self') i j = entry 0 (counts self) i j + w
          ∧ (∀ i' j', (i', j') ≠ (i, j) →
               entry 0 (counts self') i' j' = entry 0 (counts self) i' j')
          ∧ (transition_matrix self').1 = compute_P (counts self') sm.
Proof.
  intros Hnd.
  destruct (init_run_well_formed (fun _ => True) I states sm cs)
    as (self & Hrun & Hwf & Hst & Hs); [apply any_weights_keep|].
  exists self. split; [done|]. intros i j f g w Hi Hj.
  destruct Hwf as (Hn & Hidx & Hlen & Hrows & _).
  unfold observe_transition.
  rewrite Hidx, Hst, (make_idx_lookup _ _ _ Hnd Hi),
    (make_idx_lookup _ _ _ Hnd Hj).
  rewrite Hst in Hn.
  destruct (add_at_entry (counts self) (n self) i j w)
    as (m' & -> & He & Hother).
  - rewrite Hn. by eapply lookup_lt_Some.
  - rewrite Hn. by eapply lookup_lt_Some.
  - done.
  - eapply Forall_impl; [exact Hrows|]. by intros row [? _].
  - cbn [mbind result_bind]. eexists. split; [reflexivity|].
    cbn [counts]. split; [done|]. split; [done|].
    unfold transition_matrix. cbn. by rewrite Hs.
Qed.

(** The readable matrix maps a pair of state names to the entry of the
    transition matrix at their indices. *)
Theorem readable_matrix_lookup (states : list string) (sm : Q)
    (cs : list call) :
  NoDup states →
  ∃ self,
    (self0 ← init states sm; run self0 cs) = Ok self
    ∧ ∀ i j s s', states !! i = Some s → states !! j = Some s' →
        ∃ row, (transition_prob_matrix_readable self).1 !! s = Some row
          ∧ row !! s' = Some (entry 0 (transition_matrix self).1 i j).
Proof.
  intros Hnd.
  destruct (init_run_well_formed (fun _ => True) I states sm cs)
    as (self & Hrun & Hwf & Hst & Hs); [apply any_weights_keep|].
  exists self. split; [done|]. intros i j s s' Hi Hj.
  destruct Hwf as (Hn & _). rewrite Hst in Hn.
  unfold transition_prob_matrix_readable.
  destruct (transition_matrix self) as [P self'] eqn:E. cbn [fst].
  rewrite Hst. eexists. split.
  - apply (foldl_insert_lookup (A := nat * string) snd
             (fun p => to_dict states
                         ((fun j => entry 0 P p.1 j) <$> seq 0 (n self)))
             (fun out '(i, s) =>
                <[s := to_dict states
                         ((fun j => entry 0 P i j) <$> seq 0 (n self))]> out)
             (imap pair states) ltac:(by intros m [??]) ∅ (i, s)).
    + change (NoDup (imap (fun i s => (id i, s)) states).*2).
      by rewrite imap_pair_snd.
    + apply elem_of_lookup_imap. by exists i, s.
  - cbn [fst]. rewrite (to_dict_lookup _ _ j); [|done| |done].
    + rewrite list_lookup_fmap, lookup_seq_lt; [done|].
      rewrite Hn. by eapply lookup_lt_Some.
    + by rewrite length_fmap, length_seq.
Qed.

(** The graph search of [is_irreducible]. *)

Section Search.

Variable A : imatrix.
Variable n : nat.

Lemma visit_fold (u : nat) (vs : list nat) :
  ∀ (visited : gset nat) (stack : list nat) visited' stack',
    foldl (visit A u) (visited, stack) vs = (visited', stack') →
    (∀ x, x ∈ visited' ↔
          x ∈ visited ∨ (x ∈ vs ∧ entry 0%Z A u x ≠ 0%Z))
    ∧ ∃ new, stack' = new ++ stack ∧ NoDup new
        ∧ ∀ x, x ∈ new ↔ x ∈ visited' ∧ x ∉ visited.
Proof.
  induction vs as [|v vs IH]; intros visited stack visited' stack' Hf.
  - injection Hf as <- <-. split; [set_solver|].
    exists []. split; [done|]. split; [constructor|set_solver].
  - cbn [foldl] in Hf. unfold visit at 2 in Hf.
    destruct (negb (entry 0%Z A u v =? 0)%Z && bool_decide (v ∉ visited))
      eqn:Hc.
    + apply andb_true_iff in Hc as [Hedge Hv].
      apply negb_true_iff, Z.eqb_neq in Hedge.
      apply bool_decide_eq_true in Hv.
      destruct (IH _ _ _ _ Hf) as (Hvis & new & -> & Hnd & Hnew).
      split.
      * intros x. rewrite Hvis, elem_of_cons, elem_of_union,
          elem_of_singleton.
        split; [|intros [?|[[->|?] ?]]; tauto].
        intros [[->|?]|[? ?]]; tauto.
      * exists (new ++ [v]). split; [by rewrite <- app_assoc|]. split.
        { apply NoDup_app. split; [done|]. split; [|apply NoDup_singleton].
          intros x Hx ->%list_elem_of_singleton.
          apply Hnew in Hx as [_ Hx]. set_solver. }
        intros x. rewrite elem_of_app, list_elem_of_singleton, Hnew.
        rewrite not_elem_of_union, not_elem_of_singleton.
        split.
        { intros [(? & _ & ?)| ->]; [done|]. split; [|done].
          apply Hvis. set_solver. }
        intros [Hx Hnx]. destruct (decide (x = v)); [by right|by left].
    + destruct (IH _ _ _ _ Hf) as (Hvis & new & -> & Hnd & Hnew).
      split; [|by exists new].
      intros x. rewrite Hvis, elem_of_cons.
      split; [tauto|]. intros [?|[[->|?] Hx]]; [tauto| |tauto].
      apply andb_false_iff in Hc as [Hc|Hc].
      * apply negb_false_iff, Z.eqb_eq in Hc. done.
      * apply bool_decide_eq_false in Hc. left.
        by destruct (decide (v ∈ visited)).
Qed.

Lemma bounded_size (X : gset nat) :
  (∀ x, x ∈ X → (x < n)%nat) → (size X <= n)%nat.
Proof.
  intros HX. rewrite <- (size_set_seq (C := gset nat) 0 n).
  apply subseteq_size. intros x Hx. apply elem_of_set_seq.
  specialize (HX x Hx). lia.
Qed.

Lemma search_spec (fuel : nat) :
  ∀ stack visited reachable,
    search_inv A n stack visited reachable →
    (n < fuel + size reachable)%nat →
    ∃ R, search fuel n A stack visited reachable = Some R
      ∧ search_inv A n [] R R.
Proof.
  induction fuel as [|fuel IH];
    intros stack visited reachable (Hnd & Hvis & Hdis & Hreach & Hclosed & H0) Hf.
  - destruct stack as [|u stack].
    + exists reachable. split; [done|].
      assert (visited = reachable) as -> by set_solver.
      unfold search_inv. by split_and!.
    + exfalso. assert (size ({[u]} ∪ reachable) <= n)%nat as Hle.
      { apply bounded_size. intros x Hx. apply Hreach, Hvis. set_solver. }
      rewrite size_union, size_singleton in Hle; [simpl in *; lia|].
      specialize (Hdis u). set_solver.
  - destruct stack as [|u stack].
    + exists reachable. split; [done|].
      assert (visited = reachable) as -> by set_solver.
      unfold search_inv. by split_and!.
    + cbn [search].
      destruct (foldl (visit A u) (visited, stack) (seq 0 n))
        as [visited' stack'] eqn:Hfold.
      destruct (visit_fold _ _ _ _ _ _ Hfold)
        as (Hvis' & new & -> & Hndnew & Hnew).
      apply NoDup_cons in Hnd as [Hu Hnd].
      assert (u ∉ reachable) as Hur by (apply Hdis; left).
      assert ((u < n)%nat ∧ rtc (edge A n) 0%nat u) as [Hun Hru].
      { apply Hreach, Hvis. right. left. }
      apply IH.
      * split; [|split; [|split; [|split; [|split]]]];
          [| | | | |apply Hvis'; by left].
        -- apply NoDup_app. split; [done|]. split; [|done].
           intros x Hx Hxs. apply Hnew in Hx as [_ Hx]. apply Hx, Hvis.
           right. by right.
        -- intros x. rewrite Hvis', Hvis, elem_of_union, elem_of_singleton,
             elem_of_app, Hnew, Hvis', Hvis, !elem_of_cons.
           destruct (decide (x = u)); [tauto|].
           destruct (decide (x ∈ reachable)); [tauto|].
           destruct (decide (x ∈ stack)); tauto.
        -- intros x. rewrite elem_of_app, Hnew, Hvis, elem_of_union,
             elem_of_singleton, elem_of_cons.
           intros [[_ Hx]|Hx] [->|Hxr].
           ++ tauto.
           ++ tauto.
           ++ done.
           ++ apply (Hdis x); [by right|done].
        -- intros x [Hx|[Hx Hedge]]%Hvis'; [by apply Hreach|].
           apply elem_of_seq in Hx. split; [lia|].
           eapply rtc_r; [exact Hru|]. split; [done|].
           split; [lia|done].
        -- intros x v [->%elem_of_singleton|Hx]%elem_of_union Hedge.
           ++ apply Hvis'. destruct Hedge as (_ & Hv & Hedge).
              right. split; [|done]. apply elem_of_seq. lia.
           ++ apply Hvis'. left. by eapply Hclosed.
      * rewrite size_union, size_singleton by set_solver. lia.
Qed.

Lemma search_result (fuel : nat) :
  (0 < n)%nat → (n < fuel)%nat →
  ∃ R, search fuel n A [0%nat] {[0%nat]} ∅ = Some R
    ∧ (size R = n ↔ ∀ j, (j < n)%nat → rtc (edge A n) 0%nat j).
Proof.
  intros Hn Hfuel.
  destruct (search_spec fuel [0%nat] {[0%nat]} ∅)
    as (R & HR & _ & _ & _ & Hreach & Hclosed & H0).
  - split; [apply NoDup_singleton|]. split; [set_solver|].
    split; [set_solver|]. split; [|set_solver].
    intros x ->%elem_of_singleton. split; [done|constructor].
  - rewrite size_empty. lia.
  - exists R. split; [done|].
    assert (∀ j, rtc (edge A n) 0%nat j → j ∈ R) as Hall.
    { refine (rtc_ind_r (fun j => j ∈ R) 0%nat H0 _).
      intros y z _ Hyz Hy. by eapply Hclosed. }
    assert (R ⊆ set_seq 0 n) as Hsub.
    { intros x Hx. apply elem_of_set_seq. apply Hreach in Hx. lia. }
    split.
    + intros Hsize j Hj. apply Hreach.
      assert (R = set_seq 0 n) as ->; [|apply elem_of_set_seq; lia].
      apply set_subseteq_size_eq; [done|].
      rewrite size_set_seq. lia.
    + intros Hj. assert (R = set_seq 0 n) as ->; [|apply size_set_seq].
      apply set_eq. intros x. split; [apply Hsub|].
      intros Hx%elem_of_set_seq. apply Hall, Hj. lia.
Qed.

End Search.

Lemma counts_edge (self : t) (u v : nat) :
  edge ((fun row : list Q =>
           (fun c => if Qgt_bool c 0 then 1%Z else 0%Z) <$> row)
          <$> counts self) (n self) u v
  ↔ observed self u v.
Proof.
  unfold edge, observed, entry. rewrite list_lookup_fmap.
  destruct (counts self !! u) as [row|]; simpl.
  - rewrite list_lookup_fmap. destruct (row !! v) as [c|]; simpl.
    + unfold Qgt_bool. destruct (Qle_bool c 0) eqn:Hc; simpl.
      * apply Qle_bool_iff in Hc. split; [intros (_ & _ & ?); done|].
        intros (_ & _ & Hlt). exfalso. by eapply Qlt_not_le.
      * split; [|intros (? & ? & _); done]. intros (? & ? & _).
        split; [done|]. split; [done|]. apply Qnot_le_lt. intros Hle.
        apply Qle_bool_iff in Hle. congruence.
    + split; [intros (_ & _ & ?); done|].
      intros (_ & _ & Hlt). by apply Qlt_irrefl in Hlt.
  - split; [intros (_ & _ & ?); done|].
    intros (_ & _ & Hlt). by apply Qlt_irrefl in Hlt.
Qed.

Lemma rtc_iff {X} (R1 R2 : relation X) (x y : X) :
  (∀ a b, R1 a b ↔ R2 a b) → rtc R1 x y ↔ rtc R2 x y.
Proof.
  intros HR. split; induction 1; econstructor; try done; by apply HR.
Qed.

(** [is_irreducible] answers whether every state can be reached from the
    first state of the list along transitions with a positive count; it
    answers [False] for an empty state list.  It does not ask whether the
    first state can be reached back. *)
Theorem is_irreducible_is_reachability_from_first_state
    (states : list string) (sm : Q) (cs : list call) :
  ∃ self,
    (self0 ← init states sm; run self0 cs) = Ok self
    ∧ ∀ fuel, (length states < fuel)%nat →
        ∃ b, is_irreducible fuel self = Some b
          ∧ (b = true ↔
             states ≠ []
             ∧ ∀ j, (j < length states)%nat → rtc (observed self) 0%nat j).
Proof.
  destruct (init_run_well_formed (fun _ => True) I states sm cs)
    as (self & Hrun & Hwf & Hst & Hs); [apply any_weights_keep|].
  exists self. split; [done|]. intros fuel Hfuel.
  destruct Hwf as (Hn & _). rewrite Hst in Hn. rewrite <- Hn in *.
  unfold is_irreducible.
  destruct (decide (n self = 0%nat)) as [Hz|Hz].
  - rewrite Hz. destruct fuel as [|fuel]; [lia|].
    cbn [search seq foldl]. replace (search fuel 0 _ [] _ _)
      with (Some ({[0%nat]} ∪ ∅ : gset nat)) by by destruct fuel.
    cbn. eexists. split; [reflexivity|].
    split; [done|]. intros [Hne _]. exfalso. apply Hne.
    apply length_zero_iff_nil. congruence.
  - set (A := (fun row : list Q => _ <$> row) <$> counts self).
    destruct (search_result A (n self) fuel) as (R & -> & HR); [lia|done|].
    cbn. eexists. split; [reflexivity|].
    rewrite bool_decide_eq_true, HR. split.
    + intros Hall. split.
      * intros ->. simpl in Hn. lia.
      * intros j Hj. eapply rtc_iff; [|by apply Hall].
        intros a b. symmetry. apply counts_edge.
    + intros [_ Hall] j Hj. eapply rtc_iff; [|by apply Hall].
      intros a b. apply counts_edge.
Qed.

(** Smoothing plays no part in [is_irreducible]: while no observation of
    positive weight has been made, a model of two or more states is not
    irreducible. *)
Theorem is_irreducible_needs_observations (states : list string) (sm : Q)
    (cs : list call) :
  (2 <= length states)%nat →
  Forall (fun c => match c with Observe _ _ w => w <= 0 | _ => True end) cs →
  ∃ self,
    (self0 ← init states sm; run self0 cs) = Ok self
    ∧ ∀ fuel, (length states < fuel)%nat →
        is_irreducible fuel self = Some false.
Proof.
  intros Hlen Hcs.
  destruct (init_run_well_formed (fun c => c <= 0) (Qle_refl 0) states sm cs)
    as (self & Hrun & Hwf & Hst & Hs).
  { eapply Forall_impl; [exact Hcs|]. intros [f g w| | |]; try done.
    intros Hw x Hx. apply Qle_trans with (0 + 0); [|done].
    by apply Qplus_le_compat. }
  exists self. split; [done|]. intros fuel Hfuel.
  destruct Hwf as (Hn & _ & _ & Hrows & _). rewrite Hst in Hn.
  unfold is_irreducible.
  set (A := (fun row : list Q => _ <$> row) <$> counts self).
  destruct (search_result A (n self) fuel) as (R & -> & HR); [lia|lia|].
  cbn. f_equal. apply bool_decide_eq_false. rewrite HR. intros Hall.
  specialize (Hall 1%nat ltac:(lia)).
  apply rtc_inv in Hall as [[=]|(y & Hedge & _)].
  apply counts_edge in Hedge as (_ & _ & Hpos).
  apply Qlt_not_le in Hpos. apply Hpos. unfold entry.
  destruct (counts self !! 0%nat) as [row|] eqn:Hrow; simpl; [|done].
  destruct (row !! y) as [c|] eqn:Hc; simpl; [|done].
  pose proof (Forall_lookup_1 _ _ _ _ Hrows Hrow) as [_ Hr].
  apply (Forall_lookup_1 _ _ _ _ Hr Hc).
Qed.

(** The point distribution on two states. *)
Lemma predict_distribution_without_steps_witness :
  let states := ["a"; "b"]%string in
  let cs := [Observe "a" "b" 1] in
  ∃ self,
    (self0 ← init states (1 # 1000); run self0 cs) = Ok self
    ∧ ∀ s steps, s ∈ states → (steps <= 0)%Z →
        ∃ d, (predict_distribution self s steps).1 = Some d
          ∧ d !! s = Some 1
          ∧ ∀ s', s' ∈ states → s' ≠ s → d !! s' = Some 0.
Proof.
  intros states cs.
  apply (predict_distribution_without_steps states (1 # 1000) cs).
  by apply (bool_decide_unpack _).
Defined.


(** One count changes on two states. *)
Lemma observe_transition_adds_to_one_count_witness :
  let states := ["a"; "b"]%string in
  let cs := [Observe "a" "b" 1; TransitionMatrix] in
  ∃ self,
    (self0 ← init states (1 # 1000); run self0 cs) = Ok self
    ∧ ∀ i j f g w, states !! i = Some f → states !! j = Some g →
        ∃ self', observe_transition self f g w = Ok self'
          ∧ entry 0 (counts self') i j = entry 0 (counts self) i j + w
          ∧ (∀ i' j', (i', j') ≠ (i, j) →
               entry 0 (counts self') i' j' = entry 0 (counts self) i' j')
          ∧ (transition_matrix self').1
            = compute_P (counts self') (1 # 1000).
Proof.
  intros states cs.
  apply (observe_transition_adds_to_one_count states (1 # 1000) cs).
  by apply (bool_decide_unpack _).
Defined.

(** The readable matrix on two states. *)
Lemma readable_matrix_lookup_witness :
  let states := ["a"; "b"]%string in
  let cs := [Observe "a" "b" 1] in
  ∃ self,
    (self0 ← init states (1 # 1000); run self0 cs) = Ok self
    ∧ ∀ i j s s', states !! i = Some s → states !! j = Some s' →
        ∃ row, (transition_prob_matrix_readable self).1 !! s = Some row
          ∧ row !! s' = Some (entry 0 (transition_matrix self).1 i j).
Proof.
  intros states cs.
  apply (readable_matrix_lookup states (1 # 1000) cs).
  by apply (bool_decide_unpack _).
Defined.

(** A fresh model of two states. *)
Lemma is_irreducible_needs_observations_witness :
  let states := ["a"; "b"]%string in
  ∃ self,
    (self0 ← init states (1 # 1000); run self0 [TransitionMatrix]) = Ok self
    ∧ ∀ fuel, (length states < fuel)%nat →
        is_irreducible fuel self = Some false.
Proof.
  intros states.
  apply (is_irreducible_needs_observations states (1 # 1000)
           [TransitionMatrix]).
  - simpl. lia.
  - by repeat constructor.
Defined.

End OnlineMarkovModelFacts.

(** ** The transition model on binary64 floats *)

Module OnlineMarkovModel64Facts.
Import OnlineMarkovModel64.
Local Open Scope float_scope.
Local Set Warnings "-inexact-float".

Lemma make_idx_holds (states : list string) (s : string) (i : nat) :
  OnlineMarkovModel.make_idx states !! s = Some i → states !! i = Some s.
Proof.
  unfold OnlineMarkovModel.make_idx.
  assert (Hgen : ∀ (l : list (nat * string)) (m : gmap string nat),
    (∀ s j, m !! s = Some j → states !! j = Some s) →
    Forall (fun p => states !! p.1 = Some p.2) l →
    ∀ s i, foldl (fun m '(i, s) => <[s := i]> m) m l !! s = Some i →
           states !! i = Some s).
  { induction l as [|[j s'] l IH]; intros m Hm Hl s0 i0; [apply Hm|].
    apply Forall_cons in Hl as [Hj Hl]. cbn [foldl].
    apply (IH (<[s' := j]> m)); [|done].
    intros s1 j1. destruct (decide (s' = s1)) as [->|Hne].
    - rewrite lookup_insert_eq. by intros [= <-].
    - rewrite lookup_insert_ne by done. apply Hm. }
  apply (Hgen (imap pair states) ∅); [by intros ? ?; rewrite lookup_empty|].
  apply Forall_forall. intros [j s'] (k & x & [= -> ->] & Hk)%elem_of_lookup_imap.
  done.
Qed.

Lemma init_shape (states : list string) (sm : float) :
  ∃ self, init states sm = Ok self ∧ well_formed self
    ∧ OnlineMarkovModel64.states self = states ∧ smoothing self = sm
    ∧ counts self
      = replicate (length states) (replicate (length states) 0).
Proof.
  eexists. split; [reflexivity|]. split; [|done].
  split_and!; try done; cbn.
  - by rewrite length_replicate.
  - apply Forall_replicate. by rewrite length_replicate.
Qed.

Lemma add_at_shape (m : fmatrix) (N i j : nat) (w : float) :
  (i < N)%nat → (j < N)%nat → length m = N →
  Forall (fun row => length row = N) m →
  ∃ m', add_at m i j w = Ok m' ∧ length m' = N
    ∧ Forall (fun row => length row = N) m'
    ∧ ∀ i', i' ≠ i → m' !! i' = m !! i'.
Proof.
  intros Hi Hj Hlen Hrows. unfold add_at.
  destruct (getitem_in_range m (Z.of_nat i)) as (row & Hrow & ->); [lia|].
  rewrite Nat2Z.id in Hrow. cbn [mbind result_bind].
  pose proof (Forall_lookup_1 _ _ _ _ Hrows Hrow) as Hrl. simpl in Hrl.
  destruct (getitem_in_range row (Z.of_nat j)) as (c & Hc & ->); [lia|].
  cbn [mbind result_bind].
  unfold setitem. rewrite !norm_index_in_range by lia.
  cbn [mbind result_bind]. rewrite !Nat2Z.id.
  eexists. split; [reflexivity|]. rewrite length_insert. split; [done|].
  split.
  - apply Forall_insert; [done|]. by rewrite length_insert.
  - intros i' Hne. by rewrite list_lookup_insert_ne.
Qed.

Lemma observe_transition_shape (self : t) (f g : string) (w : float) :
  well_formed self →
  ∃ self', observe_transition self f g w = Ok self' ∧ well_formed self'
    ∧ states self' = states self ∧ smoothing self' = smoothing self
    ∧ ∀ i s, states self !! i = Some s → f ≠ s →
        counts self' !! i = counts self !! i.
Proof.
  intros (Hn & Hidx & Hlen & Hrows & Hc). unfold observe_transition.
  destruct (idx self !! f) as [i|] eqn:Hi;
    [|by exists self; split_and!].
  destruct (idx self !! g) as [j|] eqn:Hj;
    [|by exists self; split_and!].
  rewrite Hidx in Hi, Hj.
  pose proof (OnlineMarkovModelFacts.make_idx_lt _ _ _ Hi) as Hil.
  pose proof (OnlineMarkovModelFacts.make_idx_lt _ _ _ Hj) as Hjl.
  destruct (add_at_shape (counts self) (n self) i j w)
    as (m' & -> & Hlen' & Hrows' & Hother); [lia|lia|done|done|].
  cbn [mbind result_bind]. eexists. split; [reflexivity|].
  split; [by split_and!|]. split; [done|]. split; [done|].
  intros i' s Hs Hne. cbn [counts]. apply Hother. intros ->.
  apply make_idx_holds in Hi. congruence.
Qed.

Lemma observe_all_shape (obs : list (string * string * float)) :
  ∀ self, well_formed self →
    ∃ self', observe_all self obs = Ok self' ∧ well_formed self'
      ∧ states self' = states self ∧ smoothing self' = smoothing self
      ∧ ∀ i s, states self !! i = Some s →
          Forall (fun ob => ob.1.1 ≠ s) obs →
          counts self' !! i = counts self !! i.
Proof.
  induction obs as [|[[f g] w] obs IH]; intros self Hwf.
  - by exists self.
  - cbn [observe_all].
    destruct (observe_transition_shape self f g w Hwf)
      as (self1 & -> & Hwf1 & Hst1 & Hs1 & Hrow1).
    cbn [mbind result_bind].
    destruct (IH self1 Hwf1) as (self' & Hrun & Hwf' & Hst & Hs & Hrow).
    exists self'. split; [done|]. split; [done|].
    split; [congruence|]. split; [congruence|].
    intros i s Hi Hobs. apply Forall_cons in Hobs as [Hf Hobs].
    rewrite (Hrow i s); [|by rewrite Hst1|done]. by apply (Hrow1 i s).
Qed.

Section Facts.

Variable np_sum : list float → float.


(** C10 as amended.  After any sequence of observations, if for some state
    the diagonal entry that [transition_matrix] computes, the count of the
    state's self-transitions plus smoothing divided by the row's total,
    exceeds [1e-12], then [is_aperiodic()] returns [True] on its first test,
    whatever was observed. *)
Theorem is_aperiodic_by_smoothed_diagonal (states : list string) (sm : float)
    (obs : list (string * string * float)) :
  ∃ self,
    (self0 ← init states sm; observe_all self0 obs) = Ok self
    ∧ ∀ i crow, counts self !! i = Some crow →
        PrimFloat.ltb eps
          ((OnlineMarkovModel.entry 0 (counts self) i i + sm)
           / row_total np_sum sm crow) = true →
        (is_aperiodic np_sum self).1 = true.
Proof.
  destruct (init_shape states sm) as (self0 & -> & Hwf0 & Hst0 & Hs0 & Hc0).
  cbn [mbind result_bind].
  destruct (observe_all_shape obs self0 Hwf0)
    as (self & Hrun & Hwf & Hst & Hs & _).
  exists self. split; [done|]. intros i crow Hi Hgt.
  destruct Hwf as (Hn & _ & Hlen & Hrows & Hcache).
  unfold is_aperiodic, transition_matrix. rewrite Hcache.
  assert (Hex : existsb
            (fun i => PrimFloat.ltb eps
               (OnlineMarkovModel.entry 0
                  (compute_P np_sum (counts self) (smoothing self)) i i))
            (seq 0 (n self)) = true); [|by rewrite Hex].
  apply existsb_exists. exists i. split.
  - apply in_seq. apply lookup_lt_Some in Hi. lia.
  - pose proof (Forall_lookup_1 _ _ _ _ Hrows Hi) as Hl. simpl in Hl.
    destruct (lookup_lt_is_Some_2 crow i) as [c Hc].
    { apply lookup_lt_Some in Hi. lia. }
    unfold OnlineMarkovModel.entry in *. unfold compute_P.
    rewrite list_lookup_fmap, Hi in *. cbn in *.
    unfold normalize_row. rewrite !list_lookup_fmap, Hc in *. cbn in *.
    by rewrite Hs, Hs0.
Qed.

End Facts.



(** C10 as amended, on two states with the default smoothing: ten
    observations from [a] to [b], no self-transition. *)
Lemma is_aperiodic_by_smoothed_diagonal_witness :
  let states := ["a"; "b"]%string in
  let obs := replicate 10 ("a", "b", 1)%string in
  ∃ self,
    (self0 ← init states 0.001; observe_all self0 obs) = Ok self
    ∧ counts self = [[0; 10]; [0; 0]]
    ∧ (is_aperiodic sum_left self).1 = true.
Proof.
  intros states obs.
  destruct (is_aperiodic_by_smoothed_diagonal sum_left states 0.001 obs)
    as (self & Hrun & Hap).
  exists self. vm_compute in Hrun. injection Hrun as <-.
  split; [reflexivity|]. split; [reflexivity|].
  apply (Hap 0%nat [0; 10]); [reflexivity|]. by vm_compute.
Defined.

(** C10 as stated fails, with the default smoothing on three states.  With
    weights 999999999.997 from [a] to [b] and 1e10 between [b] and [c], the
    smoothed diagonal probability of [a] exceeds 1e-12 in exact arithmetic,
    but the entry that [transition_matrix] computes is the float 1e-12
    itself and [is_aperiodic()] returns [False].  With weight 1e10 on all
    three transitions no smoothed diagonal probability exceeds 1e-12, and
    [is_aperiodic()] returns [False] again. *)
Lemma is_aperiodic_false_with_default_smoothing :
  (∃ self,
     (self0 ← init ["a"; "b"; "c"]%string 0.001;
        observe_all self0 [("a", "b", 999999999.997); ("b", "c", 1e10);
                           ("c", "b", 1e10)]%string) = Ok self
     ∧ Qlt (1 # 1000000000000) (smoothed_diagonal self 0)
     ∧ OnlineMarkovModel.entry 0 (transition_matrix sum_left self).1 0 0
       = eps
     ∧ (is_aperiodic sum_left self).1 = false)
  ∧ (∃ self,
       (self0 ← init ["a"; "b"; "c"]%string 0.001;
          observe_all self0 [("a", "b", 1e10); ("b", "c", 1e10);
                             ("c", "b", 1e10)]%string) = Ok self
       ∧ Forall (fun i => Qle (smoothed_diagonal self i) (1 # 1000000000000))
                [0; 1; 2]%nat
       ∧ (is_aperiodic sum_left self).1 = false).
Proof.
  split.
  - eexists. split; [by vm_compute|]. split; [by vm_compute|].
    split; by vm_compute.
  - eexists. split; [by vm_compute|]. split; [|by vm_compute].
    repeat constructor; by vm_compute.
Qed.

End OnlineMarkovModel64Facts.

(** ** Configuration errors *)

Module ConfigurationFacts.
Section Facts.

Variable mmh3_hash : string → Z → Z.
Variable randint_seeded : Z → nat → Z.
Variable sha256_int : string → Z.
Variable randint : nat → Z.
Context {heapq : Heapq.Ops}.

Lemma range_pos (d : Z) : 0 < d → range d = 0%nat :: seq 1 (Z.to_nat d - 1).
Proof.
  intros Hd. unfold range.
  replace (Z.to_nat d) with (S (Z.to_nat d - 1)) at 1 by lia. done.
Qed.

Lemma range_nonpos (d : Z) : d <= 0 → range d = [].
Proof. intros Hd. unfold range. by replace (Z.to_nat d) with 0%nat by lia. Qed.

Lemma repeat_list_nonpos {A} (x : A) (n : Z) : n <= 0 → repeat_list x n = [].
Proof.
  intros Hn. unfold repeat_list. by replace (Z.to_nat n) with 0%nat by lia.
Qed.

Lemma sketch_add_bad_width (w d seed : Z) (key : string) (count : Z) :
  w <= 0 → 0 < d →
  ∃ self, CountMinSketch.init randint_seeded w d seed = Ok self
    ∧ CountMinSketch.add mmh3_hash self key count
      = Raise (if w =? 0 then ZeroDivisionError else IndexError).
Proof.
  intros Hw Hd. eexists. split; [reflexivity|].
  unfold CountMinSketch.add. simpl. rewrite (range_pos d Hd). simpl.
  unfold mod_. destruct (Z.eqb_spec w 0) as [->|Hne]; [done|].
  simpl. by rewrite repeat_list_nonpos, getitem_nil by lia.
Qed.

Lemma sketch_bad_depth (w d seed : Z) (key : string) (count : Z) :
  d <= 0 →
  ∃ self, CountMinSketch.init randint_seeded w d seed = Ok self
    ∧ CountMinSketch.add mmh3_hash self key count = Ok self
    ∧ CountMinSketch.estimate mmh3_hash self key = Raise ValueError.
Proof.
  intros Hd. eexists. split; [reflexivity|].
  unfold CountMinSketch.add, CountMinSketch.estimate. simpl.
  by rewrite (range_nonpos d Hd).
Qed.

Lemma ams_bad_k (k : Z) (item : string) (value : Z) :
  k <= 0 →
  ∃ self, AMSF2.init randint k = Ok self
    ∧ AMSF2.update sha256_int self item value = Ok self
    ∧ AMSF2.estimate_F2 self = Raise ZeroDivisionError.
Proof.
  intros Hk. eexists. split; [reflexivity|].
  unfold AMSF2.update, AMSF2.estimate_F2. simpl.
  by rewrite (range_nonpos k Hk), (repeat_list_nonpos 0 k Hk).
Qed.

Lemma sampler_bad_k (k : Z) (item : string) :
  k <= 0 →
  ∃ self, MinWiseSampler.init k = Ok self
    ∧ MinWiseSampler.consider sha256_int self item = Raise IndexError.
Proof.
  intros Hk. eexists. split; [reflexivity|].
  unfold MinWiseSampler.consider. simpl. change (Z.of_nat 0) with 0.
  destruct (Z.ltb_spec 0 k); [lia|]. done.
Qed.

Lemma markov_no_states (smoothing : Q) (from_state to_state : string)
    (weight : Q) :
  ∃ self, OnlineMarkovModel.init [] smoothing = Ok self
    ∧ OnlineMarkovModel.n self = 0%nat
    ∧ OnlineMarkovModel.observe_transition self from_state to_state weight
      = Ok self.
Proof.
  eexists. split; [reflexivity|]. split; [done|].
  unfold OnlineMarkovModel.observe_transition. simpl.
  unfold OnlineMarkovModel.make_idx. simpl. by rewrite lookup_empty.
Qed.

(** C5 as amended. No constructor checks its configuration, so construction
    with an invalid one succeeds.  What follows depends on the component: in
    the frequency sketch with a depth of at least 1, [add] raises
    [ZeroDivisionError] for width 0 and [IndexError] for a negative width;
    with a non-positive depth [add] does nothing and [estimate] raises
    [ValueError]; in the F2 estimator with a non-positive [k], [update] does
    nothing and [estimate_F2] raises [ZeroDivisionError]; in the sampler with
    a non-positive [k], [consider] raises [IndexError]; the transition model
    on an empty state list has no states and ignores every observation. *)
Theorem invalid_configuration_constructs :
  (∀ w d seed, raises (CountMinSketch.init randint_seeded w d seed) = false)
  ∧ (∀ k, raises (AMSF2.init randint k) = false)
  ∧ (∀ k, raises (MinWiseSampler.init k) = false)
  ∧ (∀ states smoothing,
       raises (OnlineMarkovModel.init states smoothing) = false)
  ∧ (∀ w d seed key count, w <= 0 → 0 < d →
       ∃ self, CountMinSketch.init randint_seeded w d seed = Ok self
         ∧ CountMinSketch.add mmh3_hash self key count
           = Raise (if w =? 0 then ZeroDivisionError else IndexError))
  ∧ (∀ w d seed key count, d <= 0 →
       ∃ self, CountMinSketch.init randint_seeded w d seed = Ok self
         ∧ CountMinSketch.add mmh3_hash self key count = Ok self
         ∧ CountMinSketch.estimate mmh3_hash self key = Raise ValueError)
  ∧ (∀ k item value, k <= 0 →
       ∃ self, AMSF2.init randint k = Ok self
         ∧ AMSF2.update sha256_int self item value = Ok self
         ∧ AMSF2.estimate_F2 self = Raise ZeroDivisionError)
  ∧ (∀ k item, k <= 0 →
       ∃ self, MinWiseSampler.init k = Ok self
         ∧ MinWiseSampler.consider sha256_int self item = Raise IndexError)
  ∧ (∀ smoothing from_state to_state weight,
       ∃ self, OnlineMarkovModel.init [] smoothing = Ok self
         ∧ OnlineMarkovModel.n self = 0%nat
         ∧ OnlineMarkovModel.observe_transition self from_state to_state weight
           = Ok self).
Proof.
  split_and!; try done.
  - apply sketch_add_bad_width.
  - apply sketch_bad_depth.
  - apply ams_bad_k.
  - apply sampler_bad_k.
  - apply markov_no_states.
Qed.

End Facts.

(** C5 as amended, on concrete hash functions and the array heap: a
    sketch of width 0 and an estimator with [k = 0]. *)
Lemma invalid_configuration_constructs_witness :
  let mmh3 := fun (key : string) (s : Z) => Z.of_nat (String.length key) + s in
  let rand := fun (seed : Z) (i : nat) => seed + Z.of_nat i in
  let sha := fun s : string => Z.of_nat (String.length s) in
  (∃ self, CountMinSketch.init rand 0 5 42 = Ok self
     ∧ CountMinSketch.add mmh3 self "player:123" 1 = Raise ZeroDivisionError)
  ∧ (∃ self, AMSF2.init (rand 7) 0 = Ok self
       ∧ AMSF2.update sha self "12" 1 = Ok self
       ∧ AMSF2.estimate_F2 self = Raise ZeroDivisionError).
Proof.
  intros mmh3 rand sha.
  destruct (invalid_configuration_constructs mmh3 rand sha (rand 7)
              (heapq := HeapqFacts.array_ops))
    as (_ & _ & _ & _ & Hw & _ & Hk & _).
  split.
  - apply (Hw 0 5 42 "player:123"%string 1); lia.
  - apply (Hk 0 "12"%string 1); lia.
Defined.

(** C5 as stated fails: a sketch of width 0 is constructed without an
    error, and the error comes with the first [add]. *)
Lemma zero_width_fails_at_update :
  let mmh3 := fun (key : string) (s : Z) => Z.of_nat (String.length key) + s in
  let rand := fun (seed : Z) (i : nat) => seed + Z.of_nat i in
  ∃ self, CountMinSketch.init rand 0 5 42 = Ok self
    ∧ raises (CountMinSketch.init rand 0 5 42) = false
    ∧ CountMinSketch.add mmh3 self "player:123" 1 = Raise ZeroDivisionError.
Proof. intros mmh3 rand. eexists. by split_and!. Qed.

End ConfigurationFacts.

(** ** Second frequency moment *)

Module AMSF2Facts.
Import AMSF2.
Section Facts.

Variable sha256_int : string → Z.
Variable randint : nat → Z.

Local Abbreviation sign := (sign sha256_int).
Local Abbreviation update := (update sha256_int).
Local Abbreviation update_loop := (update_loop sha256_int).
Local Abbreviation update_all := (update_all sha256_int).
Local Abbreviation signed_total := (signed_total sha256_int).
Local Abbreviation init := (init randint).

Lemma sign_square (x : string) (seed : Z) : sign x seed * sign x seed = 1.
Proof. unfold AMSF2.sign. by destruct (_ =? 0). Qed.

Lemma update_loop_zip (hashes : list Z) (item : string) (value : Z)
    (n : nat) :
  ∀ (i : nat) (acc : list Z),
    length hashes = (i + n)%nat → length acc = (i + n)%nat →
    update_loop hashes item value (seq i n) acc
    = Ok (take i acc
          ++ zip_with (fun seed z => z + sign item seed * value)
                      (drop i hashes) (drop i acc)).
Proof.
  induction n as [|n IH]; intros i acc Hh Ha.
  - simpl. rewrite (drop_ge acc) by lia. rewrite take_ge by lia.
    destruct (drop i hashes); simpl; by rewrite app_nil_r.
  - cbn [seq AMSF2.update_loop].
    destruct (getitem_in_range hashes (Z.of_nat i)) as (seed & Hseed & ->);
      [lia|].
    destruct (getitem_in_range acc (Z.of_nat i)) as (z & Hz & ->); [lia|].
    rewrite Nat2Z.id in Hseed, Hz. cbn [mbind result_bind].
    unfold setitem. rewrite norm_index_in_range by lia.
    cbn [mbind result_bind]. rewrite Nat2Z.id.
    rewrite IH by (rewrite ?length_insert; lia).
    rewrite (take_S_r _ _ (z + sign item seed * value))
      by (apply list_lookup_insert_eq; lia).
    rewrite take_insert_ge by lia. rewrite drop_insert_lt by lia.
    rewrite (drop_S hashes seed i Hseed), (drop_S acc z i Hz). simpl.
    by rewrite <- app_assoc.
Qed.

Lemma update_zip (self : t) (item : string) (value : Z) :
  length (sign_hashes self) = Z.to_nat (k self) →
  length (Z_ self) = Z.to_nat (k self) →
  update self item value
  = Ok {| k := k self; sign_hashes := sign_hashes self;
          Z_ := zip_with (fun seed z => z + sign item seed * value)
                         (sign_hashes self) (Z_ self) |}.
Proof.
  intros Hh Ha. unfold AMSF2.update, range.
  rewrite (update_loop_zip _ _ _ _ 0%nat) by (simpl; lia).
  by rewrite take_0, !drop_0.
Qed.

Lemma update_all_totals (ops : list (string * Z)) :
  ∀ (self : t) (b : Z → Z),
    length (sign_hashes self) = Z.to_nat (k self) →
    Z_ self = b <$> sign_hashes self →
    ∃ self', update_all self ops = Ok self'
      ∧ k self' = k self ∧ sign_hashes self' = sign_hashes self
      ∧ Z_ self' = (fun seed => b seed + signed_total seed ops)
                     <$> sign_hashes self.
Proof.
  induction ops as [|[x v] ops IH]; intros self b Hh Hz.
  - exists self. split_and!; try done. rewrite Hz.
    apply list_fmap_ext. intros _ seed _. simpl. lia.
  - cbn [AMSF2.update_all]. rewrite update_zip;
      [|done|by rewrite Hz, length_fmap].
    cbn [mbind result_bind].
    match goal with |- context [update_all ?s1 ops] => set (self1 := s1) end.
    destruct (IH self1 (fun seed => b seed + sign x seed * v))
      as (self' & Hrun & Hk & Hs & Hz'); [exact Hh| |].
    + simpl. rewrite Hz. clear. induction (sign_hashes self) as [|s l IHl];
        [done|]. cbn. by f_equal.
    + exists self'. simpl in *. split_and!; try done. rewrite Hz'.
      apply list_fmap_ext. intros _ seed _. simpl. lia.
Qed.

Lemma init_run (kk : Z) (ops : list (string * Z)) :
  ∃ self, (self0 ← init kk; update_all self0 ops) = Ok self
    ∧ k self = kk ∧ sign_hashes self = randint <$> range kk
    ∧ Z_ self = (fun seed => signed_total seed ops) <$> sign_hashes self.
Proof.
  cbn [mbind result_bind AMSF2.init].
  match goal with |- context [update_all ?s0 ops] => set (self0 := s0) end.
  destruct (update_all_totals ops self0 (fun _ => 0))
    as (self & Hrun & Hk & Hs & Hz); [| |exists self; split; [exact Hrun|]].
  - simpl. unfold range. by rewrite length_fmap, length_seq.
  - simpl. unfold repeat_list, range.
    generalize (Z.to_nat kk) at 1 2. intros n. generalize 0%nat.
    induction n as [|n IHn]; intros j; simpl; [done|]. by rewrite <- IHn.
  - simpl in *. split_and!; [done|done|]. by rewrite Hz, Hs.
Qed.

(** Updates never raise, whatever [k] is, and each accumulator holds the
    signed total of the stream under its seed: the sum of
    [sign(item, seed) * value] over the updates. *)
Theorem accumulators_are_signed_totals (kk : Z) (ops : list (string * Z)) :
  ∃ self,
    (self0 ← init kk; update_all self0 ops) = Ok self
    ∧ Z_ self = (fun seed => signed_total seed ops)
                  <$> (randint <$> range kk).
Proof.
  destruct (init_run kk ops) as (self & Hrun & _ & Hs & Hz).
  exists self. split; [done|]. by rewrite Hz, Hs.
Qed.

Lemma signed_total_single (x : string) (seed : Z) (ops : list (string * Z)) :
  Forall (fun op => op.1 = x) ops →
  signed_total seed ops = sign x seed * total_value ops.
Proof.
  induction 1 as [|[y v] ops Hy _ IH]; simpl in *; [lia|].
  subst y. rewrite IH. unfold total_value. simpl. lia.
Qed.

Lemma sum_squares_constant (f : Z → Z) (t : Z) (l : list Z) :
  (∀ s, f s * f s = t) →
  foldr Z.add 0 ((fun z => z * z) <$> (f <$> l)) = Z.of_nat (length l) * t.
Proof.
  intros Hf. induction l as [|s l IH]; [done|].
  cbn [fmap list_fmap foldr length]. cbn [fmap] in IH. rewrite IH, Hf. lia.
Qed.


Lemma run_estimate (kk : Z) (ops : list (string * Z)) :
  1 <= kk →
  ∃ self, (self0 ← init kk; update_all self0 ops) = Ok self
    ∧ Z_ self = (fun seed => signed_total seed ops) <$> sign_hashes self
    ∧ length (sign_hashes self) = Z.to_nat kk
    ∧ estimate_F2 self
      = truediv (foldr Z.add 0 ((fun z => z * z) <$> Z_ self)) kk.
Proof.
  intros Hk. destruct (init_run kk ops) as (self & Hrun & _ & Hs & Hz).
  assert (Hlen : length (sign_hashes self) = Z.to_nat kk).
  { rewrite Hs. unfold range. by rewrite length_fmap, length_seq. }
  exists self. split_and!; [done|done|done|].
  unfold estimate_F2. rewrite length_fmap, Hz, length_fmap, Hlen.
  by rewrite Z2Nat.id by lia.
Qed.

(** After a stream that updates one item only, for [k >= 1], every squared
    accumulator is the square of the total of the values, and [estimate_F2]
    is the true division of [k] times that square by [k]. *)
Theorem single_item_estimate_is_square_of_total (kk : Z) (x : string)
    (ops : list (string * Z)) :
  1 <= kk → Forall (fun op => op.1 = x) ops →
  ∃ self,
    (self0 ← init kk; update_all self0 ops) = Ok self
    ∧ (fun z => z * z) <$> Z_ self
      = replicate (Z.to_nat kk) (total_value ops * total_value ops)
    ∧ estimate_F2 self
      = truediv (kk * (total_value ops * total_value ops)) kk.
Proof.
  intros Hk Hx.
  destruct (run_estimate kk ops Hk) as (self & Hrun & Hz & Hlen & Hest).
  exists self. split; [done|].
  assert (Hsq : ∀ s, signed_total s ops * signed_total s ops
                     = total_value ops * total_value ops).
  { intros s. rewrite (signed_total_single x) by done.
    pose proof (sign_square x s). nia. }
  split.
  - rewrite Hz, <- Hlen. clear -Hsq.
    induction (sign_hashes self) as [|s l IH]; [done|].
    cbn [fmap list_fmap length replicate]. cbn [fmap] in IH.
    by rewrite IH, Hsq.
  - rewrite Hest, Hz.
    rewrite (sum_squares_constant _ (total_value ops * total_value ops))
      by done.
    by rewrite Hlen, Z2Nat.id by lia.
Qed.


Lemma zip_cancel (a : Z → Z) (v : Z) (h : list Z) :
  ∀ zs : list Z, length h = length zs →
    zip_with (fun s z => z + a s * - v) h
             (zip_with (fun s z => z + a s * v) h zs) = zs.
Proof.
  induction h as [|s h IH]; intros [|z zs] Hlen; simpl in *; try done.
  rewrite IH by lia. f_equal. lia.
Qed.

(** Updating an item by [v] and then by [-v] restores the estimator: the
    accumulators are linear, so an update can be undone. *)
Theorem update_is_undone_by_negation (kk : Z) (ops : list (string * Z))
    (x : string) (v : Z) :
  ∃ self,
    (self0 ← init kk; update_all self0 ops) = Ok self
    ∧ (self' ← update self x v; update self' x (- v)) = Ok self.
Proof.
  destruct (init_run kk ops) as (self & Hrun & Hk & Hs & Hz).
  assert (Hlen : length (sign_hashes self) = Z.to_nat (k self)).
  { rewrite Hs, Hk. unfold range. by rewrite length_fmap, length_seq. }
  assert (Hlz : length (Z_ self) = Z.to_nat (k self))
    by by rewrite Hz, length_fmap.
  exists self. split; [done|].
  rewrite update_zip by done. cbn [mbind result_bind].
  rewrite update_zip; cbn [k sign_hashes Z_];
    [|done|rewrite length_zip_with; lia].
  rewrite zip_cancel by lia. by destruct self.
Qed.

End Facts.

(** One item updated three times, three seeds: the estimate is 9. *)
Lemma single_item_estimate_is_square_of_total_witness :
  let sha := fun s : string => Z.of_nat (String.length s) in
  let rand := fun i : nat => Z.of_nat i + 7 in
  let ops := [("12", 1); ("12", 4); ("12", -2)]%string in
  ∃ self,
    (self0 ← init rand 3; update_all sha self0 ops) = Ok self
    ∧ (fun z => z * z) <$> Z_ self = [9; 9; 9]
    ∧ estimate_F2 self = Ok 9%float.
Proof.
  intros sha rand ops.
  apply (single_item_estimate_is_square_of_total sha rand 3 "12" ops); [lia|].
  by repeat constructor.
Defined.


End AMSF2Facts.
